(** * Authentication configuration schemas of tree-gateway

    A shallow embedding of [src/config/authentication.ts] together with the
    part of the joi validation library that file relies on, and the
    properties of the validation entry points.  joi is the library as the
    source calls it, the releases that have [Joi.validate(value, schema)]
    and [Joi.alternatives(schemas)].

    Layout:
    - [JS]      JavaScript values as configuration files produce them,
                property access on objects, [JSON.parse];
    - [JoiCore] joi's schema objects and its validation algorithm
                ([Any._validate] and the [_base] method of each type) under
                joi's default options: [abortEarly: true], [convert: true],
                [allowUnknown: false], [presence: 'optional'];
    - [Joi]     the names of joi's API that the source file calls;
    - the schemas and the three entry points of the source file;
    - the properties. *)

From Stdlib Require Import String Ascii List ZArith NArith Bool Lia.
Import ListNotations.
Local Open Scope string_scope.
Local Open Scope list_scope.
Set Warnings "-register-all".

(* ------------------------------------------------------------------ *)
(** ** JavaScript values *)
(* ------------------------------------------------------------------ *)

Module JS.

(** The values a configuration holds.  A string is represented by its
    (generalised) UTF-8 bytes, so ASCII text is itself.  A number is kept as
    the decimal [mantissa * 10 ^ exponent] it was written as: no rule of this
    development inspects a number, it only needs to be told apart from the
    other types.  An object is the list of its own enumerable properties in
    insertion order; a well-formed object has no key twice. *)
Inductive JsValue : Type :=
| JUndefined
| JNull
| JBool (b : bool)
| JNum (mantissa exponent : Z)
| JStr (s : string)
| JArr (items : list JsValue)
| JObj (props : list (string * JsValue)).

Definition Obj : Type := list (string * JsValue).

(** [value === undefined] *)
Definition is_undefined (v : JsValue) : bool :=
  match v with JUndefined => true | _ => false end.

(** [Object.prototype.hasOwnProperty.call(o, key)] *)
Fixpoint hasOwnProperty (key : string) (o : Obj) : bool :=
  match o with
  | [] => false
  | (k, _) :: rest => if String.eqb k key then true else hasOwnProperty key rest
  end.

(** [o[key]]: the property's value, [undefined] when there is none. *)
Fixpoint obj_get (key : string) (o : Obj) : JsValue :=
  match o with
  | [] => JUndefined
  | (k, v) :: rest => if String.eqb k key then v else obj_get key rest
  end.

(** [o[key] = v]: an existing property keeps its place, a new one is added
    last. *)
Fixpoint obj_set (key : string) (v : JsValue) (o : Obj) : Obj :=
  match o with
  | [] => [(key, v)]
  | (k, w) :: rest =>
      if String.eqb k key then (k, v) :: rest else (k, w) :: obj_set key v rest
  end.

(** [delete o[key]] *)
Fixpoint obj_delete (key : string) (o : Obj) : Obj :=
  match o with
  | [] => []
  | (k, w) :: rest =>
      if String.eqb k key then obj_delete key rest else (k, w) :: obj_delete key rest
  end.

(** [Object.keys(o)] *)
Definition obj_keys (o : Obj) : list string := map fst o.

(** *** JSON.parse

    joi's [convert] option makes an array rule and an object rule read a
    string value as JSON text, so the validator needs [JSON.parse].  The
    grammar is RFC 8259's: [null], [true], [false], numbers, strings with
    their escapes, arrays and objects, blanks between tokens, nothing after
    the value. *)

Definition dquote : ascii := "034"%char.
Definition backslash : ascii := "092"%char.

Definition is_ws (c : ascii) : bool :=
  Ascii.eqb c " " || Ascii.eqb c "009" || Ascii.eqb c "010" || Ascii.eqb c "013".

Fixpoint skip_ws (s : string) : string :=
  match s with
  | String c r => if is_ws c then skip_ws r else s
  | EmptyString => s
  end.

(** [strip_prefix p s]: what follows [p] in [s], when [s] starts with [p]. *)
Fixpoint strip_prefix (p s : string) : option string :=
  match p, s with
  | EmptyString, _ => Some s
  | String a p', String b s' => if Ascii.eqb a b then strip_prefix p' s' else None
  | String _ _, EmptyString => None
  end.

Definition digit_val (c : ascii) : option N :=
  let n := N_of_ascii c in
  if (48 <=? n)%N && (n <=? 57)%N then Some (n - 48)%N else None.

Definition hex_val (c : ascii) : option N :=
  let n := N_of_ascii c in
  if (48 <=? n)%N && (n <=? 57)%N then Some (n - 48)%N
  else if (65 <=? n)%N && (n <=? 70)%N then Some (n - 55)%N
  else if (97 <=? n)%N && (n <=? 102)%N then Some (n - 87)%N
  else None.

(** A run of decimal digits: its value appended to [acc], how many digits
    were read, and the rest of the text. *)
Fixpoint read_digits (s : string) (acc : Z) (count : nat) : Z * nat * string :=
  match s with
  | String c r =>
      match digit_val c with
      | Some d => read_digits r (10 * acc + Z.of_N d)%Z (S count)
      | None => (acc, count, s)
      end
  | EmptyString => (acc, count, s)
  end.

(** The optional exponent part [e], [E] with a sign and at least one digit. *)
Definition read_exponent (s : string) : option (Z * string) :=
  match s with
  | String c r =>
      if Ascii.eqb c "e" || Ascii.eqb c "E" then
        let '(neg, r1) :=
          match r with
          | String sg r' =>
              if Ascii.eqb sg "-" then (true, r')
              else if Ascii.eqb sg "+" then (false, r') else (false, r)
          | EmptyString => (false, r)
          end in
        match read_digits r1 0%Z 0 with
        | (_, O, _) => None
        | (e, S _, r2) => Some ((if neg then - e else e)%Z, r2)
        end
      else Some (0%Z, s)
  | EmptyString => Some (0%Z, s)
  end.

(** A JSON number: an optional minus sign, then 0 or a digit run that does
    not start with 0, then an optional fraction (a dot and at least one
    digit), then an optional exponent. *)
Definition parse_number (s : string) : option (JsValue * string) :=
  let '(neg, s0) :=
    match s with
    | String c r => if Ascii.eqb c "-" then (true, r) else (false, s)
    | EmptyString => (false, s)
    end in
  let int_part :=
    match s0 with
    | String c r =>
        if Ascii.eqb c "0" then Some (0%Z, r)
        else match read_digits s0 0%Z 0 with
             | (_, O, _) => None
             | (n, S _, r1) => Some (n, r1)
             end
    | EmptyString => None
    end in
  match int_part with
  | None => None
  | Some (n, s1) =>
      let frac :=
        match s1 with
        | String c r =>
            if Ascii.eqb c "." then
              match read_digits r n 0 with
              | (_, O, _) => None
              | (m, S k, r1) => Some (m, Z.of_nat (S k), r1)
              end
            else Some (n, 0%Z, s1)
        | EmptyString => Some (n, 0%Z, s1)
        end in
      match frac with
      | None => None
      | Some (m, digits, s2) =>
          match read_exponent s2 with
          | None => None
          | Some (e, s3) => Some (JNum (if neg then - m else m)%Z (e - digits)%Z, s3)
          end
      end
  end.

(** What a string literal's body denotes, piece by piece: a byte copied from
    the text, or a UTF-16 code unit written as an escape. *)
Inductive StrUnit : Type :=
| RawByte (c : ascii)
| CodeUnit (n : N).

(** The body of a string literal up to its closing quote. *)
Fixpoint read_chars (s : string) : option (list StrUnit * string) :=
  let cons_unit u r :=
    match r with
    | Some (us, rest) => Some (u :: us, rest)
    | None => None
    end in
  match s with
  | EmptyString => None
  | String c r =>
      if Ascii.eqb c dquote then Some ([], r)
      else if Ascii.eqb c backslash then
        match r with
        | String e r1 =>
            if Ascii.eqb e dquote then cons_unit (RawByte dquote) (read_chars r1)
            else if Ascii.eqb e backslash then cons_unit (RawByte backslash) (read_chars r1)
            else if Ascii.eqb e "/" then cons_unit (RawByte "/") (read_chars r1)
            else if Ascii.eqb e "b" then cons_unit (RawByte "008") (read_chars r1)
            else if Ascii.eqb e "f" then cons_unit (RawByte "012") (read_chars r1)
            else if Ascii.eqb e "n" then cons_unit (RawByte "010") (read_chars r1)
            else if Ascii.eqb e "r" then cons_unit (RawByte "013") (read_chars r1)
            else if Ascii.eqb e "t" then cons_unit (RawByte "009") (read_chars r1)
            else if Ascii.eqb e "u" then
              match r1 with
              | String h1 (String h2 (String h3 (String h4 r2))) =>
                  match hex_val h1, hex_val h2, hex_val h3, hex_val h4 with
                  | Some a, Some b, Some c', Some d =>
                      cons_unit (CodeUnit (((a * 16 + b) * 16 + c') * 16 + d)%N)
                                (read_chars r2)
                  | _, _, _, _ => None
                  end
              | _ => None
              end
            else None
        | EmptyString => None
        end
      else if (N_of_ascii c <? 32)%N then None
      else cons_unit (RawByte c) (read_chars r)
  end.

(** The UTF-8 bytes of a code point (of a lone surrogate too, as three
    bytes). *)
Definition utf8 (cp : N) : string :=
  let byte n := ascii_of_N n in
  let cont n := byte (128 + n mod 64)%N in
  if (cp <? 128)%N then String (byte cp) EmptyString
  else if (cp <? 2048)%N then
    String (byte (192 + cp / 64)%N) (String (cont cp) EmptyString)
  else if (cp <? 65536)%N then
    String (byte (224 + cp / 4096)%N)
      (String (cont (cp / 64)%N) (String (cont cp) EmptyString))
  else
    String (byte (240 + cp / 262144)%N)
      (String (cont (cp / 4096)%N)
         (String (cont (cp / 64)%N) (String (cont cp) EmptyString))).

Definition is_high_surrogate (n : N) : bool := (55296 <=? n)%N && (n <=? 56319)%N.
Definition is_low_surrogate (n : N) : bool := (56320 <=? n)%N && (n <=? 57343)%N.

(** The string the pieces spell; an escaped surrogate pair is one code
    point. *)
Fixpoint encode_units (us : list StrUnit) : string :=
  match us with
  | [] => EmptyString
  | RawByte c :: r => String c (encode_units r)
  | CodeUnit hi :: r =>
      match r with
      | CodeUnit lo :: r' =>
          if is_high_surrogate hi && is_low_surrogate lo
          then utf8 (65536 + (hi - 55296) * 1024 + (lo - 56320))%N ++ encode_units r'
          else utf8 hi ++ encode_units r
      | _ => utf8 hi ++ encode_units r
      end
  end.

(** A string literal whose opening quote has been read. *)
Definition parse_string (s : string) : option (string * string) :=
  match read_chars s with
  | Some (us, rest) => Some (encode_units us, rest)
  | None => None
  end.

(** A value, the elements of an array after its first value, and the members
    of an object after its first member.  Every call spends one unit of
    [fuel], and a call either reads a character or is followed by one that
    does, so [2 * length text + 2] units are never used up. *)
Fixpoint parse_value (fuel : nat) (s : string) : option (JsValue * string) :=
  match fuel with
  | O => None
  | S f =>
      match skip_ws s with
      | EmptyString => None
      | String c r as s0 =>
          if Ascii.eqb c dquote then
            match parse_string r with
            | Some (str, r1) => Some (JStr str, r1)
            | None => None
            end
          else if Ascii.eqb c "[" then
            match skip_ws r with
            | String c1 r1 as r0 =>
                if Ascii.eqb c1 "]" then Some (JArr [], r1)
                else match parse_elements f r0 [] with
                     | Some (items, r2) => Some (JArr items, r2)
                     | None => None
                     end
            | EmptyString => None
            end
          else if Ascii.eqb c "{" then
            match skip_ws r with
            | String c1 r1 as r0 =>
                if Ascii.eqb c1 "}" then Some (JObj [], r1)
                else match parse_members f r0 [] with
                     | Some (props, r2) => Some (JObj props, r2)
                     | None => None
                     end
            | EmptyString => None
            end
          else match strip_prefix "null" s0, strip_prefix "true" s0,
                     strip_prefix "false" s0 with
               | Some r1, _, _ => Some (JNull, r1)
               | _, Some r1, _ => Some (JBool true, r1)
               | _, _, Some r1 => Some (JBool false, r1)
               | None, None, None => parse_number s0
               end
      end
  end

with parse_elements (fuel : nat) (s : string) (acc : list JsValue)
  : option (list JsValue * string) :=
  match fuel with
  | O => None
  | S f =>
      match parse_value f s with
      | None => None
      | Some (v, r) =>
          match skip_ws r with
          | String c r1 =>
              if Ascii.eqb c "," then parse_elements f r1 (acc ++ [v])
              else if Ascii.eqb c "]" then Some (acc ++ [v], r1)
              else None
          | EmptyString => None
          end
      end
  end

with parse_members (fuel : nat) (s : string) (acc : Obj) : option (Obj * string) :=
  match fuel with
  | O => None
  | S f =>
      match skip_ws s with
      | String q r =>
          if Ascii.eqb q dquote then
            match parse_string r with
            | None => None
            | Some (key, r1) =>
                match skip_ws r1 with
                | String colon r2 =>
                    if Ascii.eqb colon ":" then
                      match parse_value f r2 with
                      | None => None
                      | Some (v, r3) =>
                          match skip_ws r3 with
                          | String c r4 =>
                              if Ascii.eqb c "," then parse_members f r4 (obj_set key v acc)
                              else if Ascii.eqb c "}" then Some (obj_set key v acc, r4)
                              else None
                          | EmptyString => None
                          end
                      end
                    else None
                | EmptyString => None
                end
            end
          else None
      | EmptyString => None
      end
  end.

(** [JSON.parse(text)], [None] when it throws. *)
Definition JSON_parse (text : string) : option JsValue :=
  match parse_value (2 * String.length text + 2) text with
  | Some (v, rest) =>
      match skip_ws rest with
      | EmptyString => Some v
      | String _ _ => None
      end
  | None => None
  end.

End JS.

Import JS.

(* ------------------------------------------------------------------ *)
(** ** joi: schema objects and validation *)
(* ------------------------------------------------------------------ *)

Module JoiCore.

(** *** Errors *)

(** The error types joi reports for the rules modelled here. *)
Inductive ErrType : Type :=
| any_required            (* "x" is required *)
| any_empty               (* "x" is not allowed to be empty *)
| any_invalid
| string_base             (* "x" must be a string *)
| boolean_base            (* "x" must be a boolean *)
| array_base              (* "x" must be an array *)
| array_sparse
| array_includesOne
| array_includes
| object_base             (* "x" must be an object *)
| object_child
| object_allowUnknown     (* "x" is not allowed *)
| object_missing          (* must contain at least one of the peers *)
| object_xor              (* contains a conflict between exclusive peers *)
| alternatives_child.

(** A step of [state.path]: a key of an object or an index of an array. *)
Inductive PathSeg : Type :=
| Key (k : string)
| Idx (i : nat).

Definition Path : Type := list PathSeg.

(** What [createError(type, context, state, options)] builds: the type, the
    path, and [context.reason], the errors of the rule underneath. *)
Inductive Err : Type :=
| MkErr (type : ErrType) (path : Path) (reason : list Err).

(** What a validation step hands back: joi's [{ value, errors }], the errors
    an empty list where joi has [null]. *)
Record Result : Type := mkResult { res_value : JsValue; res_errors : list Err }.

Definition finish (v : JsValue) : Result := mkResult v [].
Definition reject (v : JsValue) (es : list Err) : Result := mkResult v es.

(** A schema's [_validate(value, state, options)], the state reduced to its
    path and the options fixed at joi's defaults. *)
Definition Validator : Type := Path -> JsValue -> Result.

(** *** Any._validate *)

(** [_flags.presence]; a schema without the flag takes the option's
    ['optional']. *)
Inductive Presence : Type := Optional | Required.

(** [Any._validate]: presence first, then the denied values ([_invalids]),
    then the type's [_base].  No schema of this development carries a
    default, an [empty] rule, allowed values or tests, so those steps of
    [_validate] do nothing here; the only denied value is the empty string
    of [Joi.string()], whose [_base] converts nothing, so the second look at
    [_invalids] after a conversion is not reached. *)
Definition Any_validate (presence : Presence) (invalids : JsValue -> bool)
    (base : Validator) : Validator :=
  fun path value =>
    match value with
    | JUndefined =>
        match presence with
        | Optional => finish JUndefined
        | Required => reject JUndefined [MkErr any_required path []]
        end
    | _ =>
        if invalids value
        then reject value
               [MkErr (match value with
                       | JStr EmptyString => any_empty
                       | _ => any_invalid
                       end) path []]
        else base path value
    end.

Definition no_invalids : JsValue -> bool := fun _ => false.

(** *** Any: no [_base] *)
Definition Any_base : Validator := fun _ value => finish value.

(** *** String *)

(** The constructor of [Joi.string()] runs [this._invalids.add('')]. *)
Definition String_invalids : JsValue -> bool :=
  fun v => match v with JStr EmptyString => true | _ => false end.

(** [String._base]: none of [normalize], [case], [trim], [replace],
    [truncate] is set, so a string is kept as it is. *)
Definition String_base : Validator :=
  fun path value =>
    match value with
    | JStr _ => finish value
    | _ => reject value [MkErr string_base path []]
    end.

(** *** Boolean *)

Definition ascii_lower (c : ascii) : ascii :=
  let n := N_of_ascii c in
  if (65 <=? n)%N && (n <=? 90)%N then ascii_of_N (n + 32) else c.

(** [value.toLowerCase()], on the letters that matter to ['true'] and
    ['false']. *)
Fixpoint toLowerCase (s : string) : string :=
  match s with
  | EmptyString => EmptyString
  | String c r => String (ascii_lower c) (toLowerCase r)
  end.

(** [Boolean._base]: a string spelling [true] or [false] in any case is
    converted; the truthy and falsy sets are empty. *)
Definition Boolean_base : Validator :=
  fun path value =>
    let converted :=
      match value with
      | JStr s =>
          let normalized := toLowerCase s in
          if String.eqb normalized "true" then JBool true
          else if String.eqb normalized "false" then JBool false
          else value
      | _ => value
      end in
    match converted with
    | JBool _ => finish converted
    | _ => reject converted [MkErr boolean_base path []]
    end.

(** *** Array *)

(** How the loop over the inclusions ends for one item. *)
Inductive InclusionOutcome : Type :=
| Matched (v : JsValue)          (* an inclusion accepted the item *)
| IncludesOne (reason : list Err) (* the only inclusion refused it *)
| NoMatch.                        (* none of several accepted it *)

Fixpoint tryInclusions (inclusions : list Validator) (single : bool)
    (ipath : Path) (item : JsValue) : InclusionOutcome :=
  match inclusions with
  | [] => NoMatch
  | inclusion :: rest =>
      let res := inclusion ipath item in
      match res_errors res with
      | [] => Matched (res_value res)
      | es => if single then IncludesOne es else tryInclusions rest single ipath item
      end
  end.

(** [Array._checkItems] with neither exclusions, requireds nor ordereds and
    with [sparse] off: the items (converted so far) and the errors.  An
    error ends the loop ([abortEarly]), but for an inclusion that accepts an
    item and returns [undefined] for it, where the loop goes on.  [wasArray]
    is off for an array read from JSON text, whose items are reported at the
    array's own path. *)
Fixpoint Array_checkItems (inclusions : list Validator) (wasArray : bool)
    (path : Path) (i : nat) (items : list JsValue) : list JsValue * list Err :=
  match items with
  | [] => ([], [])
  | item :: rest =>
      let ipath := if wasArray then path ++ [Idx i] else path in
      if is_undefined item
      then (items, [MkErr array_sparse ipath []])
      else
        match inclusions with
        | [] =>
            let '(rest', es) := Array_checkItems inclusions wasArray path (S i) rest in
            (item :: rest', es)
        | _ :: _ =>
            match tryInclusions inclusions (Nat.eqb (List.length inclusions) 1)
                    ipath item with
            | Matched v =>
                let '(rest', es) :=
                  Array_checkItems inclusions wasArray path (S i) rest in
                if is_undefined v
                then (item :: rest', MkErr array_sparse ipath [] :: es)
                else (v :: rest', es)
            | IncludesOne reason => (items, [MkErr array_includesOne ipath reason])
            | NoMatch => (items, [MkErr array_includes ipath []])
            end
        end
  end.

(** [internals.safeParse] of array.js: the parsed text when it is an
    array. *)
Definition Array_safeParse (value : JsValue) : JsValue * bool :=
  match value with
  | JStr s =>
      match JSON_parse s with
      | Some (JArr items) => (JArr items, false)
      | _ => (value, false)
      end
  | JArr _ => (value, true)
  | _ => (value, false)
  end.

(** [Array._base] without [single]. *)
Definition Array_base (inclusions : list Validator) : Validator :=
  fun path value =>
    let '(converted, wasArray) := Array_safeParse value in
    match converted with
    | JArr items =>
        let '(items', es) := Array_checkItems inclusions wasArray path 0 items in
        mkResult (JArr items') es
    | _ => reject converted [MkErr array_base path []]
    end.

(** *** Object *)

(** [_inner.dependencies]; the source file uses [xor] only. *)
Inductive Dependency : Type :=
| Xor (peers : list string).

(** [internals.xor]: a peer is present when the object has it as an own
    property whose value is not [undefined]. *)
Definition Object_xor (peers : list string) (parent : Obj) (path : Path) : option Err :=
  let present :=
    filter (fun peer => hasOwnProperty peer parent
                        && negb (is_undefined (obj_get peer parent))) peers in
  match present with
  | [_] => None
  | [] => Some (MkErr object_missing path [])
  | _ :: _ :: _ => Some (MkErr object_xor path [])
  end.

Definition check_dependency (d : Dependency) (target : Obj) (path : Path) : option Err :=
  match d with
  | Xor peers => Object_xor peers target path
  end.

(** The loop over [_inner.dependencies]: the first error ends it. *)
Fixpoint Object_dependencies (deps : list Dependency) (target : Obj) (path : Path)
  : option Err :=
  match deps with
  | [] => None
  | d :: rest =>
      match check_dependency d target path with
      | Some e => Some e
      | None => Object_dependencies rest target path
      end
  end.

(** The loop over [_inner.children], in the order of the keys: each child
    validates [target[key]]; the first error ends the loop; a converted
    value replaces the property; a property whose value became [undefined]
    is noted in [stripProps] and deleted once the loop is over. *)
Fixpoint Object_children (children : list (string * Validator)) (path : Path)
    (target : Obj) (stripProps : list string) : Obj * list string * option Err :=
  match children with
  | [] => (target, stripProps, None)
  | (key, child) :: rest =>
      let item := obj_get key target in
      let localPath := path ++ [Key key] in
      let result := child localPath item in
      match res_errors result with
      | _ :: _ => (target, stripProps, Some (MkErr object_child localPath (res_errors result)))
      | [] =>
          if is_undefined (res_value result)
          then if is_undefined item
               then Object_children rest path target stripProps
               else Object_children rest path (obj_set key JUndefined target)
                      (stripProps ++ [key])
          else Object_children rest path (obj_set key (res_value result) target) stripProps
      end
  end.

Definition delete_props (keys : list string) (target : Obj) : Obj :=
  fold_left (fun t k => obj_delete k t) keys target.

(** The keys of the value that no child claims. *)
Definition unprocessed (childKeys : list string) (target : Obj) : list string :=
  filter (fun k => negb (existsb (String.eqb k) childKeys)) (obj_keys target).

(** [internals.safeParse] of object.js: the parsed text, the string itself
    when it is not JSON. *)
Definition Object_safeParse (value : JsValue) : JsValue :=
  match value with
  | JStr s =>
      match JSON_parse s with
      | Some parsed => parsed
      | None => value
      end
  | _ => value
  end.

(** [Object._base] without renames and patterns.  [children] is [None] for
    [Joi.object()], whose [_inner.children] is [null]: such a rule accepts
    any object as it is.  Unknown keys are errors ([allowUnknown] is off),
    all of them reported; then come the dependencies. *)
Definition Object_base (children : option (list (string * Validator)))
    (deps : list Dependency) : Validator :=
  fun path value =>
    match Object_safeParse value with
    | JObj props =>
        match children, deps with
        | None, [] => finish (JObj props)
        | _, _ =>
            let '(target, stripProps, err) :=
              match children with
              | Some ch => Object_children ch path props []
              | None => (props, [], None)
              end in
            match err with
            | Some e => reject (JObj target) [e]
            | None =>
                let target := delete_props stripProps target in
                let unknown :=
                  match children with
                  | Some ch =>
                      map (fun k => MkErr object_allowUnknown (path ++ [Key k]) [])
                          (unprocessed (map fst ch) props)
                  | None => []
                  end in
                match Object_dependencies deps target path with
                | Some e => reject (JObj target) (unknown ++ [e])
                | None => mkResult (JObj target) unknown
                end
            end
        end
    | _ => reject value [MkErr object_base path []]
    end.

(** *** Alternatives *)

(** The loop of [Alternatives._base] over [_inner.matches]: the result of
    the first alternative without errors, or the errors of all of them. *)
Fixpoint Alternatives_try (matches : list Validator) (path : Path) (value : JsValue)
  : JsValue + list Err :=
  match matches with
  | [] => inr []
  | schema :: rest =>
      let result := schema path value in
      match res_errors result with
      | [] => inl (res_value result)
      | es =>
          match Alternatives_try rest path value with
          | inl v => inl v
          | inr es' => inr (es ++ es')
          end
      end
  end.

(** [Alternatives._base]; joi's second error type, for a rule with no
    alternative at all, is left out with that rule. *)
Definition Alternatives_base (matches : list Validator) : Validator :=
  fun path value =>
    match Alternatives_try matches path value with
    | inl v => finish v
    | inr es => reject JUndefined [MkErr alternatives_child path es]
    end.

(** *** Schema objects *)

(** A schema object: its type, its presence flag and its [_inner]. *)
Inductive Schema : Type :=
| JoiAny (presence : Presence)
| JoiString (presence : Presence)
| JoiBoolean (presence : Presence)
| JoiArray (presence : Presence) (inclusions : list Schema)
| JoiObject (presence : Presence) (children : option (list (string * Schema)))
            (dependencies : list Dependency)
| JoiAlternatives (presence : Presence) (matches : list Schema).

(** [schema._validate(value, state, options)] *)
Fixpoint validate (schema : Schema) : Validator :=
  match schema with
  | JoiAny p => Any_validate p no_invalids Any_base
  | JoiString p => Any_validate p String_invalids String_base
  | JoiBoolean p => Any_validate p no_invalids Boolean_base
  | JoiArray p inclusions =>
      Any_validate p no_invalids (Array_base (map validate inclusions))
  | JoiObject p children deps =>
      Any_validate p no_invalids
        (Object_base
           (match children with
            | Some ch => Some (map (fun kc => match kc with
                                              | (k, c) => (k, validate c)
                                              end) ch)
            | None => None
            end) deps)
  | JoiAlternatives p matches =>
      Any_validate p no_invalids (Alternatives_base (map validate matches))
  end.

(** *** The schema methods the source file calls *)

(** [schema.required()] *)
Definition required (schema : Schema) : Schema :=
  match schema with
  | JoiAny _ => JoiAny Required
  | JoiString _ => JoiString Required
  | JoiBoolean _ => JoiBoolean Required
  | JoiArray _ inclusions => JoiArray Required inclusions
  | JoiObject _ children deps => JoiObject Required children deps
  | JoiAlternatives _ matches => JoiAlternatives Required matches
  end.

(** [array.items(...schemas)]: the schemas join the inclusions. *)
Definition items (schemas : list Schema) (schema : Schema) : Schema :=
  match schema with
  | JoiArray p inclusions => JoiArray p (inclusions ++ schemas)
  | _ => schema
  end.

(** [object.keys(schema)]: a child already there stays, in its place, unless
    the new keys name it again; the new children follow in the order they
    are written. *)
Definition keys (new : list (string * Schema)) (schema : Schema) : Schema :=
  match schema with
  | JoiObject p children deps =>
      let old := match children with Some ch => ch | None => [] end in
      let kept :=
        filter (fun kc => negb (existsb (String.eqb (fst kc)) (map fst new))) old in
      JoiObject p (Some (kept ++ new)) deps
  | _ => schema
  end.

(** [object.xor(...peers)] *)
Definition xor (peers : list string) (schema : Schema) : Schema :=
  match schema with
  | JoiObject p children deps => JoiObject p children (deps ++ [Xor peers])
  | _ => schema
  end.

(** *** Joi.validate *)

(** An entry of [error.details]: the type and the path of a violation. *)
Record Detail : Type := mkDetail { type : ErrType; path : Path }.

(** The error [Joi.validate] reports, by its [details]. *)
Record JoiError : Type := mkJoiError { details : list Detail }.

(** [Errors.process] keeps the leaves of the error tree: an error with a
    reason is replaced by the errors of its reason. *)
Fixpoint leaves (e : Err) : list Detail :=
  match e with
  | MkErr t p [] => [mkDetail t p]
  | MkErr _ _ ((_ :: _) as reason) => flat_map leaves reason
  end.

(** [Errors.process(errors, value)]: [null] for no error. *)
Definition Errors_process (errors : list Err) : option JoiError :=
  match errors with
  | [] => None
  | _ :: _ => Some (mkJoiError (flat_map leaves errors))
  end.

(** The object [Joi.validate] returns: [{ error, value }]; the value is there
    next to an error too, as far as it was converted. *)
Record ValidationResult : Type :=
  mkValidationResult { error : option JoiError; value : JsValue }.

End JoiCore.

Import JoiCore.

(** The API of joi, as the source file writes it. *)
Module Joi.

(** [Joi.any()] *)
Definition any : Schema := JoiAny Optional.
(** [Joi.string()] *)
Definition string : Schema := JoiString Optional.
(** [Joi.boolean()] *)
Definition boolean : Schema := JoiBoolean Optional.
(** [Joi.array()] *)
Definition array : Schema := JoiArray Optional [].
(** [Joi.object()] *)
Definition object : Schema := JoiObject Optional None [].
(** [Joi.alternatives(schemas)] *)
Definition alternatives (schemas : list Schema) : Schema :=
  JoiAlternatives Optional schemas.

(** [Joi.validate(value, schema)] *)
Definition validate (value : JsValue) (schema : Schema) : ValidationResult :=
  let result := JoiCore.validate schema [] value in
  mkValidationResult (Errors_process (res_errors result)) (res_value result).

End Joi.

(** Method calls read from left to right: [schema |> keys [...]]. *)
Notation "s |> f" := (f s) (at level 45, left associativity, only parsing).

(* ------------------------------------------------------------------ *)
(** ** src/config/authentication.ts *)
(* ------------------------------------------------------------------ *)

(** Modelled from the spec: the class [ValidationError] of ./errors, which
    is not among the source files.  By the spec the operation "fails with a
    `ValidationError`, carrying the underlying rule violation": the model
    is the joi error the exception is constructed from. *)
Inductive Exception : Type :=
| ValidationError (entity : JoiError).

(** The module's top-level bindings; the names are the source's. *)
Record ModuleScope : Type := mkModuleScope {
  jwtRequestExtractorSchema : Schema;
  jwtAuthenticationSchema : Schema;
  basicAuthenticationSchema : Schema;
  localAuthenticationSchema : Schema;
  authenticationValidatorSchema : Schema;
  apiAuthenticationValidatorSchema : Schema
}.

(** Evaluating the module: the top-level statements of the source in their
    order.  [middlewareConfigValidatorSchema] is imported from ./middleware,
    which is not among the source files: it is a parameter. *)
Definition load (middlewareConfigValidatorSchema : Schema) : ModuleScope :=
  let jwtRequestExtractorSchema :=
    Joi.object |> keys [
      ("authHeader", Joi.string);
      ("bodyField", Joi.string);
      ("cookie", Joi.string);
      ("header", Joi.string);
      ("queryParam", Joi.string)
    ] in
  let jwtAuthenticationSchema :=
    Joi.object |> keys [
      ("algorithms", Joi.array |> items [Joi.string]);
      ("audience", Joi.string);
      ("extractFrom", jwtRequestExtractorSchema);
      ("ignoreExpiration", Joi.boolean);
      ("issuer", Joi.string);
      ("secretOrKey", Joi.string |> required);
      ("verify", middlewareConfigValidatorSchema)
    ] in
  let basicAuthenticationSchema :=
    Joi.object |> keys [
      ("verify", middlewareConfigValidatorSchema |> required)
    ] in
  let localAuthenticationSchema :=
    Joi.object |> keys [
      ("passwordField", Joi.string);
      ("usernameField", Joi.string);
      ("verify", middlewareConfigValidatorSchema |> required)
    ] in
  let authenticationValidatorSchema :=
    Joi.object |> keys [
      ("strategy", middlewareConfigValidatorSchema |> required)
    ] in
  let apiAuthenticationValidatorSchema :=
    authenticationValidatorSchema |> keys [
      ("group", Joi.alternatives [Joi.array |> items [Joi.string]; Joi.string]);
      ("strategy", middlewareConfigValidatorSchema);
      ("use", Joi.string)
    ] |> xor ["strategy"; "use"] in
  mkModuleScope jwtRequestExtractorSchema jwtAuthenticationSchema
    basicAuthenticationSchema localAuthenticationSchema
    authenticationValidatorSchema apiAuthenticationValidatorSchema.

(** *** Calls

    A call of an exported function runs against the module's bindings and
    either returns a value or throws. *)

Inductive Outcome (A : Type) : Type :=
| Returns (a : A)
| Throws (e : Exception).
Arguments Returns {A} a.
Arguments Throws {A} e.

Definition M (A : Type) : Type := ModuleScope -> Outcome A * ModuleScope.

Definition ret {A} (a : A) : M A := fun scope => (Returns a, scope).

Definition throw {A} (e : Exception) : M A := fun scope => (Throws e, scope).

Definition bind {A B} (m : M A) (k : A -> M B) : M B :=
  fun scope =>
    match m scope with
    | (Returns a, scope') => k a scope'
    | (Throws e, scope') => (Throws e, scope')
    end.

(** Reading a top-level binding. *)
Definition read {A} (binding : ModuleScope -> A) : M A :=
  fun scope => (Returns (binding scope), scope).

Notation "x <- m ;; k" := (bind m (fun x => k))
  (at level 61, m at next level, right associativity).

Definition validateLocalAuthConfig (config : JsValue) : M JsValue :=
  schema <- read localAuthenticationSchema ;;
  let result := Joi.validate config schema in
  match error result with
  | Some e => throw (ValidationError e)
  | None => ret (value result)
  end.

Definition validateBasicAuthConfig (config : JsValue) : M JsValue :=
  schema <- read basicAuthenticationSchema ;;
  let result := Joi.validate config schema in
  match error result with
  | Some e => throw (ValidationError e)
  | None => ret (value result)
  end.

Definition validateJwtAuthConfig (config : JsValue) : M JsValue :=
  schema <- read jwtAuthenticationSchema ;;
  let result := Joi.validate config schema in
  match error result with
  | Some e => throw (ValidationError e)
  | None => ret (value result)
  end.

(** The outcome of a call made on the module as loaded. *)
Definition call {A} (mw : Schema) (m : M A) : Outcome A := fst (m (load mw)).




(** Modelled from the spec: the rule set [middlewareConfigValidatorSchema]
    of ./middleware, which is not among the source files.  By the spec a
    middleware configuration reference is "an opaque, externally-validated
    description of a callable/handler", and nothing is to be assumed of it
    but that it is present or absent: the model accepts every value that is
    present.  Only the closed examples use it; the theorems hold for every
    rule set. *)
Definition middlewareConfigModel : Schema := Joi.any.

(* ------------------------------------------------------------------ *)
(** ** Vocabulary of the statements *)
(* ------------------------------------------------------------------ *)

(** The rule [schema] accepts the value [v] found at [path]. *)
Definition accepts (schema : Schema) (path : Path) (v : JsValue) : Prop :=
  res_errors (validate schema path v) = [].

(** Each of the listed fields of the object, present or not, satisfies its
    rule. *)
Definition fields_ok (path : Path) (children : list (string * Schema)) (o : Obj) : Prop :=
  Forall (fun kc => accepts (snd kc) (path ++ [Key (fst kc)]) (obj_get (fst kc) o))
         children.

(** The object has no key outside the listed ones. *)
Definition only_keys (declared : list string) (o : Obj) : Prop :=
  unprocessed declared o = [].

(** The field is present: it reads something else than [undefined]. *)
Definition present (key : string) (o : Obj) : bool :=
  negb (is_undefined (obj_get key o)).

(** [_inner.children] of an object schema. *)
Definition children_of (schema : Schema) : list (string * Schema) :=
  match schema with
  | JoiObject _ (Some ch) _ => ch
  | _ => []
  end.

(** The children but the one of the given key. *)
Definition without (key : string) (children : list (string * Schema))
  : list (string * Schema) :=
  filter (fun kc => negb (String.eqb (fst kc) key)) children.

(** The keys an object schema declares. *)
Definition declared_keys (schema : Schema) : list string :=
  map fst (children_of schema).

(** The children that come before the one of the given key. *)
Fixpoint before (key : string) (children : list (string * Schema))
  : list (string * Schema) :=
  match children with
  | [] => []
  | (k, c) :: rest => if String.eqb k key then [] else (k, c) :: before key rest
  end.

(** What an entry point makes of the result of [Joi.validate]: the error
    thrown, or else the value returned. *)
Definition one_or_the_other (o : Outcome JsValue) (r : ValidationResult) : Prop :=
  (exists e, error r = Some e /\ o = Throws (ValidationError e))
  \/ (error r = None /\ o = Returns (value r)).

(** The call threw a [ValidationError]. *)
Definition threw {A} (o : Outcome A) : Prop := exists e, o = Throws (ValidationError e).

(** The children of an object schema as the validators the loop runs. *)
Definition compile_children (ch : list (string * Schema)) : list (string * Validator) :=
  map (fun kc => match kc with (k, c) => (k, validate c) end) ch.

(** The child accepts the field of its key in the object. *)
Definition child_accepts (path : Path) (t : Obj) (kc : string * Validator) : Prop :=
  res_errors (snd kc (path ++ [Key (fst kc)]) (obj_get (fst kc) t)) = [].

(** The rule of [group]: an array of strings first, a string second. *)
Definition groupRule : Schema :=
  Joi.alternatives [Joi.array |> items [Joi.string]; Joi.string].

(** A string that is not empty. *)
Definition nonempty_string (v : JsValue) : Prop :=
  exists s, v = JStr s /\ s <> EmptyString.

(** An optional field: absent, or as [P] has it. *)
Definition optional (P : JsValue -> Prop) (v : JsValue) : Prop :=
  v = JUndefined \/ P v.

(** The extraction locations that are set are declared ones, each set to a
    string that is not empty. *)
Definition locations_ok (mw : Schema) (extractor : Obj) : Prop :=
  Forall (fun kv => In (fst kv) (declared_keys (jwtRequestExtractorSchema (load mw)))
                    /\ nonempty_string (snd kv))
         extractor.

(** The optional fields of a [JWTAuthentication] as the interface types
    them, strings and the strings of a list being not empty, and [verify] as
    the middleware rule set accepts it. *)
Definition JWTAuthentication_options (mw : Schema) (candidate : Obj) : Prop :=
  optional (fun v => exists l, v = JArr l /\ Forall nonempty_string l)
           (obj_get "algorithms" candidate)
  /\ optional nonempty_string (obj_get "audience" candidate)
  /\ optional (fun v => exists extractor, v = JObj extractor /\ locations_ok mw extractor)
              (obj_get "extractFrom" candidate)
  /\ optional (fun v => exists b, v = JBool b) (obj_get "ignoreExpiration" candidate)
  /\ optional nonempty_string (obj_get "issuer" candidate)
  /\ accepts mw [Key "verify"] (obj_get "verify" candidate).

(** What a candidate is read as by an object rule: the object itself, or
    the object a string spells in JSON. *)
Definition reads_as_object (v : JsValue) : option Obj :=
  match v with
  | JObj props => Some props
  | JStr s =>
      match JSON_parse s with
      | Some (JObj props) => Some props
      | _ => None
      end
  | _ => None
  end.

(** A rule is stable when it accepts the values it hands back, and hands
    them back as they are. *)
Definition stable (schema : Schema) : Prop :=
  forall path v,
    accepts schema path v ->
    validate schema path (res_value (validate schema path v))
    = finish (res_value (validate schema path v)).

(* ------------------------------------------------------------------ *)
(** ** Proof tools *)
(* ------------------------------------------------------------------ *)

(** Induction over schema objects, through the lists inside them. *)
Section SchemaInduction.

Variable P : Schema -> Prop.
Hypothesis HAny : forall p, P (JoiAny p).
Hypothesis HString : forall p, P (JoiString p).
Hypothesis HBoolean : forall p, P (JoiBoolean p).
Hypothesis HArray : forall p inclusions,
    Forall P inclusions -> P (JoiArray p inclusions).
Hypothesis HObject : forall p children deps,
    (forall ch, children = Some ch -> Forall (fun kc => P (snd kc)) ch) ->
    P (JoiObject p children deps).
Hypothesis HAlternatives : forall p matches,
    Forall P matches -> P (JoiAlternatives p matches).

Fixpoint Schema_nested_ind (s : Schema) : P s :=
  match s with
  | JoiAny p => HAny p
  | JoiString p => HString p
  | JoiBoolean p => HBoolean p
  | JoiArray p inclusions =>
      HArray p inclusions
        ((fix all (l : list Schema) : Forall P l :=
            match l with
            | [] => Forall_nil P
            | x :: r => Forall_cons x (Schema_nested_ind x) (all r)
            end) inclusions)
  | JoiObject p children deps =>
      HObject p children deps
        (match children as c
               return forall ch, c = Some ch -> Forall (fun kc => P (snd kc)) ch with
         | None => fun ch E => match E with end
         | Some l => fun ch E =>
             match E in _ = o
                   return match o with
                          | Some ch' => Forall (fun kc => P (snd kc)) ch'
                          | None => True
                          end with
             | eq_refl =>
                 (fix all (l : list (string * Schema))
                    : Forall (fun kc => P (snd kc)) l :=
                    match l with
                    | [] => Forall_nil _
                    | (k, c) :: r =>
                        Forall_cons (k, c) (Schema_nested_ind c) (all r)
                    end) l
             end
         end)
  | JoiAlternatives p matches =>
      HAlternatives p matches
        ((fix all (l : list Schema) : Forall P l :=
            match l with
            | [] => Forall_nil P
            | x :: r => Forall_cons x (Schema_nested_ind x) (all r)
            end) matches)
  end.

End SchemaInduction.

(** The keys of a rule set are pairwise distinct. *)
Ltac distinct_keys :=
  simpl; repeat (constructor; [simpl; intuition discriminate|]); constructor.

(* ------------------------------------------------------------------ *)
(** ** Properties of the object operations *)
(* ------------------------------------------------------------------ *)

Lemma is_undefined_true (v : JsValue) : is_undefined v = true -> v = JUndefined.
Proof. destruct v; simpl; congruence. Qed.

Lemma obj_get_set_same (k : string) (v : JsValue) (o : Obj) :
  obj_get k (obj_set k v o) = v.
Proof.
  induction o as [|[k' w] o IH]; simpl.
  - now rewrite String.eqb_refl.
  - destruct (String.eqb k' k) eqn:E; simpl; rewrite E; auto.
Qed.

Lemma obj_get_set_other (k k' : string) (v : JsValue) (o : Obj) :
  k <> k' -> obj_get k' (obj_set k v o) = obj_get k' o.
Proof.
  intros Hne. induction o as [|[k0 w] o IH]; simpl.
  - destruct (String.eqb k k') eqn:E; auto.
    apply String.eqb_eq in E. contradiction.
  - destruct (String.eqb k0 k) eqn:E; simpl.
    + apply String.eqb_eq in E. subst k0.
      destruct (String.eqb k k') eqn:E'; auto.
      apply String.eqb_eq in E'. contradiction.
    + destruct (String.eqb k0 k'); auto.
Qed.

Lemma obj_get_delete_same (k : string) (o : Obj) :
  obj_get k (obj_delete k o) = JUndefined.
Proof.
  induction o as [|[k0 w] o IH]; simpl; auto.
  destruct (String.eqb k0 k) eqn:E; simpl; auto. now rewrite E.
Qed.

Lemma obj_get_delete_other (k k' : string) (o : Obj) :
  k <> k' -> obj_get k' (obj_delete k o) = obj_get k' o.
Proof.
  intros Hne. induction o as [|[k0 w] o IH]; simpl; auto.
  destruct (String.eqb k0 k) eqn:E; simpl.
  - apply String.eqb_eq in E. subst k0.
    destruct (String.eqb k k') eqn:E'; auto.
    apply String.eqb_eq in E'. contradiction.
  - destruct (String.eqb k0 k'); auto.
Qed.

(** Deleting properties that read [undefined] changes no reading. *)
Lemma obj_get_delete_props (keys : list string) (o : Obj) :
  (forall k, In k keys -> obj_get k o = JUndefined) ->
  forall k', obj_get k' (delete_props keys o) = obj_get k' o.
Proof.
  revert o. induction keys as [|k keys IH]; intros o Hu k'; simpl; auto.
  assert (Hstep : forall x, obj_get x (obj_delete k o) = obj_get x o).
  { intros x. destruct (string_dec k x) as [->|Hne].
    - rewrite obj_get_delete_same. symmetry. apply Hu. now left.
    - now apply obj_get_delete_other. }
  unfold delete_props in *. simpl. rewrite IH.
  - apply Hstep.
  - intros x Hx. rewrite Hstep. apply Hu. now right.
Qed.

Lemma hasOwnProperty_defined (k : string) (o : Obj) :
  hasOwnProperty k o && negb (is_undefined (obj_get k o))
  = negb (is_undefined (obj_get k o)).
Proof.
  induction o as [|[k0 w] o IH]; simpl; auto.
  destruct (String.eqb k0 k); auto.
Qed.

Lemma existsb_eqb_In (k : string) (l : list string) :
  existsb (String.eqb k) l = true <-> In k l.
Proof.
  rewrite existsb_exists. split.
  - intros [x [Hin E]]. apply String.eqb_eq in E. now subst.
  - intros Hin. exists k. split; auto. apply String.eqb_refl.
Qed.

(** An undeclared key is left unprocessed. *)
Lemma unprocessed_In (childKeys : list string) (o : Obj) (k : string) :
  In k (unprocessed childKeys o) <-> In k (obj_keys o) /\ ~ In k childKeys.
Proof.
  unfold unprocessed. rewrite filter_In, negb_true_iff.
  split; intros [H1 H2]; split; auto.
  - intros Hin. apply existsb_eqb_In in Hin. congruence.
  - destruct (existsb (String.eqb k) childKeys) eqn:E; auto.
    apply existsb_eqb_In in E. contradiction.
Qed.

(* ------------------------------------------------------------------ *)
(** ** Properties of the validation algorithm *)
(* ------------------------------------------------------------------ *)

(** *** Any._validate *)

Lemma validate_required_undefined (schema : Schema) (path : Path) :
  validate (required schema) path JUndefined
  = reject JUndefined [MkErr any_required path []].
Proof. destruct schema; reflexivity. Qed.

(** [required()] changes nothing for a value that is there. *)
Lemma validate_required_defined (schema : Schema) (path : Path) (v : JsValue) :
  v <> JUndefined -> validate (required schema) path v = validate schema path v.
Proof.
  intros Hv. destruct schema; destruct v; try contradiction; reflexivity.
Qed.

Lemma Alternatives_try_inl (matches : list Validator) (path : Path) (v w : JsValue) :
  Alternatives_try matches path v = inl w ->
  exists m, In m matches /\ res_errors (m path v) = [] /\ w = res_value (m path v).
Proof.
  induction matches as [|m ms IH]; simpl; [discriminate|].
  destruct (res_errors (m path v)) eqn:E.
  - intros [= <-]. exists m. auto.
  - destruct (Alternatives_try ms path v) eqn:E'; [|discriminate].
    intros [= <-]. destruct (IH eq_refl) as [m' [Hin H]].
    exists m'. split; auto.
Qed.

(** A rule never turns a value into [undefined], nor [undefined] into a
    value: no schema here has a default or strips its value. *)
Lemma validate_keeps_presence (schema : Schema) :
  forall path v,
    res_errors (validate schema path v) = [] ->
    is_undefined (res_value (validate schema path v)) = is_undefined v.
Proof.
  induction schema using Schema_nested_ind; intros path v;
    (destruct v; [destruct p; simpl; auto | ..]);
    try (simpl; auto; fail).
  1: { (* string *)
    destruct s; simpl; auto. }
  1: { (* boolean, from a string *)
    unfold validate, Any_validate, no_invalids, Boolean_base.
    destruct (String.eqb (toLowerCase s) "true"); [reflexivity|].
    destruct (String.eqb (toLowerCase s) "false"); reflexivity. }
  1: { (* array, from a string *)
    unfold validate, Any_validate, no_invalids, Array_base, Array_safeParse.
    destruct (JSON_parse s) as [[]|]; simpl; auto.
    destruct (Array_checkItems _ _ _ _ _); reflexivity. }
  1: { (* array *)
    unfold validate, Any_validate, no_invalids, Array_base, Array_safeParse.
    destruct (Array_checkItems _ _ _ _ _); reflexivity. }
  1: { (* object, from a string *)
    unfold validate, Any_validate, no_invalids, Object_base, Object_safeParse.
    destruct (JSON_parse s) as [[]|]; simpl; auto.
    destruct children as [ch|].
    + destruct (Object_children _ _ _ _) as [[t sp] [e|]]; [reflexivity|].
      destruct (Object_dependencies _ _ _); reflexivity.
    + destruct deps; [reflexivity|].
      destruct (Object_dependencies _ _ _); reflexivity. }
  1: { (* object *)
    unfold validate, Any_validate, no_invalids, Object_base, Object_safeParse.
    destruct children as [ch|].
    + destruct (Object_children _ _ _ _) as [[t sp] [e|]]; [reflexivity|].
      destruct (Object_dependencies _ _ _); reflexivity.
    + destruct deps; [reflexivity|].
      destruct (Object_dependencies _ _ _); reflexivity. }
  (* alternatives, for each type of value *)
  all: cbn [validate]; unfold Any_validate, no_invalids, Alternatives_base.
  all: match goal with
       | |- context [Alternatives_try ?ms ?p ?x] =>
           destruct (Alternatives_try ms p x) as [w|es] eqn:E
       end; [|simpl; discriminate].
  all: intros _; simpl.
  all: apply Alternatives_try_inl in E; destruct E as [m [Hin [He ->]]].
  all: apply in_map_iff in Hin; destruct Hin as [s0 [<- Hin]].
  all: rewrite Forall_forall in H; now rewrite (H s0 Hin).
Qed.

(** *** The loop over the children of an object *)

Lemma child_accepts_dec (path : Path) (t : Obj) (kc : string * Validator) :
  {child_accepts path t kc} + {~ child_accepts path t kc}.
Proof.
  unfold child_accepts.
  destruct (res_errors (snd kc (path ++ [Key (fst kc)]) (obj_get (fst kc) t)));
    [left; reflexivity | right; discriminate].
Qed.

(** A child is judged on its own field only. *)
Lemma child_accepts_ext (path : Path) (t1 t2 : Obj) (kc : string * Validator) :
  obj_get (fst kc) t1 = obj_get (fst kc) t2 ->
  child_accepts path t1 kc -> child_accepts path t2 kc.
Proof. unfold child_accepts. now intros ->. Qed.

(** One round of the loop for a child that accepts its field: the loop goes
    on with a target that differs at the child's key only, where it holds
    the child's value. *)
Lemma Object_children_step (path : Path) (k : string) (c : Validator)
    (rest : list (string * Validator)) (t : Obj) (sp : list string) :
  child_accepts path t (k, c) ->
  exists t1 sp1,
    Object_children ((k, c) :: rest) path t sp = Object_children rest path t1 sp1
    /\ (forall k', k <> k' -> obj_get k' t1 = obj_get k' t)
    /\ obj_get k t1 = res_value (c (path ++ [Key k]) (obj_get k t))
    /\ (sp1 = sp \/ (sp1 = sp ++ [k] /\ obj_get k t1 = JUndefined)).
Proof.
  unfold child_accepts. simpl. intros Hok. rewrite Hok.
  destruct (is_undefined (res_value (c (path ++ [Key k]) (obj_get k t)))) eqn:Ev.
  - apply is_undefined_true in Ev.
    destruct (is_undefined (obj_get k t)) eqn:Ei.
    + apply is_undefined_true in Ei.
      exists t, sp. repeat split; auto. congruence.
    + exists (obj_set k JUndefined t), (sp ++ [k]). repeat split.
      * intros k' Hne. now apply obj_get_set_other.
      * rewrite obj_get_set_same. congruence.
      * right. split; auto. apply obj_get_set_same.
  - exists (obj_set k (res_value (c (path ++ [Key k]) (obj_get k t))) t), sp.
    repeat split; auto.
    + intros k' Hne. now apply obj_get_set_other.
    + apply obj_get_set_same.
Qed.

(** When every child accepts its field the loop reaches its end, and the
    target then holds each child's value at its key and the candidate's
    value at every other key. *)
Lemma Object_children_ok (path : Path) (ch : list (string * Validator)) :
  forall t sp,
    NoDup (map fst ch) ->
    Forall (child_accepts path t) ch ->
    exists t' sp',
      Object_children ch path t sp = (t', sp', None)
      /\ (forall k, ~ In k (map fst ch) -> obj_get k t' = obj_get k t)
      /\ (forall k c, In (k, c) ch ->
            obj_get k t' = res_value (c (path ++ [Key k]) (obj_get k t)))
      /\ (forall k, In k sp' -> In k sp \/ obj_get k t' = JUndefined).
Proof.
  induction ch as [|[k c] rest IH]; intros t sp Hnd Hall.
  - exists t, sp. simpl. repeat split; auto. intros k c [].
  - simpl in Hnd. inversion Hnd as [|? ? Hnotin Hnd']; subst.
    inversion Hall as [|? ? Hk Hrest]; subst.
    destruct (Object_children_step path k c rest t sp Hk)
      as [t1 [sp1 [Hstep [Hother [Hsame Hsp]]]]].
    assert (Hall1 : Forall (child_accepts path t1) rest).
    { rewrite Forall_forall in *. intros [k' c'] Hin.
      apply (child_accepts_ext path t); auto. simpl. symmetry. apply Hother.
      intros ->. apply Hnotin. apply in_map_iff. now exists (k', c'). }
    destruct (IH t1 sp1 Hnd' Hall1) as [t' [sp' [Hrun [Hout [Hin Hstrip]]]]].
    exists t', sp'. rewrite Hstep. repeat split; auto.
    + intros k0 Hk0. simpl in Hk0.
      rewrite Hout by tauto. apply Hother. tauto.
    + intros k0 c0 [[= <- <-]|Hin0].
      * rewrite Hout by assumption. exact Hsame.
      * rewrite (Hin k0 c0 Hin0). rewrite Hother; auto.
        intros ->. apply Hnotin. apply in_map_iff. now exists (k0, c0).
    + intros k0 Hk0. destruct (Hstrip k0 Hk0) as [Hsp1|Hu]; auto.
      destruct Hsp as [->|[-> Hku]]; auto.
      apply in_app_or in Hsp1. destruct Hsp1 as [|[<-|[]]]; auto.
      right. rewrite Hout by assumption. exact Hku.
Qed.

(** The loop stops at the first child that refuses its field, whatever
    comes after it, and reports the errors of that child. *)
Lemma Object_children_first_error (path : Path) (pre : list (string * Validator)) :
  forall t sp k c post,
    NoDup (map fst (pre ++ (k, c) :: post)) ->
    Forall (child_accepts path t) pre ->
    ~ child_accepts path t (k, c) ->
    exists t' sp',
      Object_children (pre ++ (k, c) :: post) path t sp
      = (t', sp', Some (MkErr object_child (path ++ [Key k])
                          (res_errors (c (path ++ [Key k]) (obj_get k t))))).
Proof.
  induction pre as [|[k0 c0] pre IH]; intros t sp k c post Hnd Hall Hbad.
  - unfold child_accepts in Hbad. simpl in *.
    destruct (res_errors (c (path ++ [Key k]) (obj_get k t))); [contradiction|].
    now exists t, sp.
  - simpl in Hnd. inversion Hnd as [|? ? Hnotin Hnd']; subst.
    inversion Hall as [|? ? Hk Hrest]; subst.
    destruct (Object_children_step path k0 c0 (pre ++ (k, c) :: post) t sp Hk)
      as [t1 [sp1 [Hstep [Hother _]]]].
    assert (Hkey : forall k' c', In (k', c') (pre ++ (k, c) :: post) -> k0 <> k').
    { intros k' c' Hin ->. apply Hnotin. apply in_map_iff. now exists (k', c'). }
    assert (Hall1 : Forall (child_accepts path t1) pre).
    { rewrite Forall_forall in *. intros [k' c'] Hin.
      apply (child_accepts_ext path t); auto. simpl. symmetry. apply Hother.
      apply (Hkey k' c'). apply in_or_app. now left. }
    assert (Hk0 : k0 <> k).
    { apply (Hkey k c). apply in_or_app. right. now left. }
    assert (Hbad1 : ~ child_accepts path t1 (k, c)).
    { intros H. apply Hbad.
      apply (child_accepts_ext path t1); [simpl; now apply Hother | exact H]. }
    destruct (IH t1 sp1 k c post Hnd' Hall1 Hbad1) as [t' [sp' Hrun]].
    exists t', sp'. simpl app. rewrite Hstep, Hrun.
    rewrite (Hother k Hk0). reflexivity.
Qed.

(** A child that refuses its field makes the loop end in an error. *)
Lemma Object_children_fails (path : Path) (ch : list (string * Validator))
    (t : Obj) (sp : list string) :
  NoDup (map fst ch) ->
  Exists (fun kc => ~ child_accepts path t kc) ch ->
  exists t' sp' e, Object_children ch path t sp = (t', sp', Some e).
Proof.
  intros Hnd Hex.
  assert (Hsplit : exists pre k c post,
             ch = pre ++ (k, c) :: post
             /\ Forall (child_accepts path t) pre
             /\ ~ child_accepts path t (k, c)).
  { clear Hnd. induction ch as [|[k c] rest IH]; [inversion Hex|].
    destruct (child_accepts_dec path t (k, c)) as [Hok|Hbad].
    - inversion Hex as [? ? Hhd|? ? Htl]; subst; [contradiction|].
      destruct (IH Htl) as [pre [k' [c' [post [-> [Hpre Hbad]]]]]].
      exists ((k, c) :: pre), k', c', post. repeat split; auto.
    - exists [], k, c, rest. repeat split; auto. }
  destruct Hsplit as [pre [k [c [post [-> [Hpre Hbad]]]]]].
  destruct (Object_children_first_error path pre t sp k c post Hnd Hpre Hbad)
    as [t' [sp' Hrun]].
  eauto.
Qed.

(** The loop reaches its end only when every child accepts its field. *)
Lemma Object_children_None (path : Path) (ch : list (string * Validator))
    (t : Obj) (sp : list string) (t' : Obj) (sp' : list string) :
  NoDup (map fst ch) ->
  Object_children ch path t sp = (t', sp', None) ->
  Forall (child_accepts path t) ch.
Proof.
  intros Hnd Hrun.
  destruct (Forall_Exists_dec (child_accepts path t) (child_accepts_dec path t) ch)
    as [Hall|Hex]; auto.
  destruct (Object_children_fails path ch t sp Hnd Hex) as [t1 [sp1 [e Hrun']]].
  congruence.
Qed.

(** *** Object rules *)

Lemma compile_children_keys (ch : list (string * Schema)) :
  map fst (compile_children ch) = map fst ch.
Proof.
  unfold compile_children. rewrite map_map. apply map_ext. now intros [k c].
Qed.

Lemma compile_children_app (a b : list (string * Schema)) :
  compile_children (a ++ b) = compile_children a ++ compile_children b.
Proof. apply map_app. Qed.

Lemma compile_children_accepts (path : Path) (ch : list (string * Schema)) (o : Obj) :
  Forall (child_accepts path o) (compile_children ch) <-> fields_ok path ch o.
Proof.
  unfold fields_ok, compile_children. rewrite Forall_map.
  split; apply Forall_impl; now intros [k c].
Qed.

(** An object rule with children, met by an object: the loop over the
    children, then the unknown keys, then the dependencies. *)
Lemma validate_object_unfold (p : Presence) (ch : list (string * Schema))
    (deps : list Dependency) (path : Path) (props : Obj) :
  validate (JoiObject p (Some ch) deps) path (JObj props)
  = match Object_children (compile_children ch) path props [] with
    | (target, _, Some e) => reject (JObj target) [e]
    | (target, stripProps, None) =>
        let target' := delete_props stripProps target in
        let unknown := map (fun k => MkErr object_allowUnknown (path ++ [Key k]) [])
                           (unprocessed (map fst ch) props) in
        match Object_dependencies deps target' path with
        | Some e => reject (JObj target') (unknown ++ [e])
        | None => mkResult (JObj target') unknown
        end
    end.
Proof.
  cbn [validate]. unfold Any_validate, no_invalids, Object_base, Object_safeParse.
  fold (compile_children ch). rewrite compile_children_keys.
  destruct (Object_children (compile_children ch) path props []) as [[t sp] [e|]];
    reflexivity.
Qed.

(** An object is accepted only when each child accepts its field and no
    key is undeclared. *)
Lemma object_accepted_inv (p : Presence) (ch : list (string * Schema))
    (deps : list Dependency) (path : Path) (props : Obj) :
  NoDup (map fst ch) ->
  accepts (JoiObject p (Some ch) deps) path (JObj props) ->
  fields_ok path ch props /\ only_keys (map fst ch) props.
Proof.
  unfold accepts. rewrite validate_object_unfold. intros Hnd.
  destruct (Object_children (compile_children ch) path props [])
    as [[t sp] [e|]] eqn:Hrun; [discriminate|].
  intros Hacc. split.
  - apply compile_children_accepts.
    apply (Object_children_None path _ props [] t sp); auto.
    now rewrite compile_children_keys.
  - unfold only_keys.
    destruct (unprocessed (map fst ch) props); auto.
    simpl in Hacc. destruct (Object_dependencies _ _ _); discriminate.
Qed.

(** An undeclared key is an error, whatever else the object holds. *)
Lemma object_unknown_key (p : Presence) (ch : list (string * Schema))
    (deps : list Dependency) (path : Path) (props : Obj) (k : string) :
  In k (obj_keys props) -> ~ In k (map fst ch) ->
  ~ accepts (JoiObject p (Some ch) deps) path (JObj props).
Proof.
  intros Hin Hnot. unfold accepts. rewrite validate_object_unfold.
  destruct (Object_children (compile_children ch) path props [])
    as [[t sp] [e|]]; [discriminate|].
  assert (Hu : In k (unprocessed (map fst ch) props)) by now apply unprocessed_In.
  destruct (unprocessed (map fst ch) props); [contradiction|].
  simpl. destruct (Object_dependencies _ _ _); discriminate.
Qed.

(** With the fields before [k] accepted and the field [k] refused, the one
    error of the object is the child error of [k]. *)
Lemma object_first_error (p : Presence) (pre post : list (string * Schema))
    (k : string) (c : Schema) (deps : list Dependency) (path : Path) (props : Obj) :
  NoDup (map fst (pre ++ (k, c) :: post)) ->
  fields_ok path pre props ->
  ~ accepts c (path ++ [Key k]) (obj_get k props) ->
  res_errors (validate (JoiObject p (Some (pre ++ (k, c) :: post)) deps) path (JObj props))
  = [MkErr object_child (path ++ [Key k])
       (res_errors (validate c (path ++ [Key k]) (obj_get k props)))].
Proof.
  intros Hnd Hpre Hbad. rewrite validate_object_unfold.
  rewrite compile_children_app. simpl compile_children.
  destruct (Object_children_first_error path (compile_children pre) props []
              k (validate c) (compile_children post)) as [t' [sp' Hrun]].
  - change ((k, validate c) :: compile_children post)
      with (compile_children ((k, c) :: post)).
    rewrite <- compile_children_app. now rewrite compile_children_keys.
  - now apply compile_children_accepts.
  - exact Hbad.
  - unfold compile_children in *. simpl in *. rewrite Hrun. reflexivity.
Qed.

(** A refused field makes the object refused. *)
Lemma object_child_refused (p : Presence) (ch : list (string * Schema))
    (deps : list Dependency) (path : Path) (props : Obj) (k : string) (c : Schema) :
  NoDup (map fst ch) ->
  In (k, c) ch ->
  ~ accepts c (path ++ [Key k]) (obj_get k props) ->
  ~ accepts (JoiObject p (Some ch) deps) path (JObj props).
Proof.
  intros Hnd Hin Hbad Hacc.
  destruct (object_accepted_inv p ch deps path props Hnd Hacc) as [Hall _].
  unfold fields_ok in Hall. rewrite Forall_forall in Hall.
  apply Hbad. apply (Hall (k, c) Hin).
Qed.

(** An object whose fields are all accepted and whose keys are all declared
    comes out with each field at its rule's value and is then judged by the
    dependencies alone. *)
Lemma object_fields_accepted (p : Presence) (ch : list (string * Schema))
    (deps : list Dependency) (path : Path) (props : Obj) :
  NoDup (map fst ch) ->
  fields_ok path ch props ->
  only_keys (map fst ch) props ->
  exists target,
    (forall k, ~ In k (map fst ch) -> obj_get k target = obj_get k props)
    /\ (forall k c, In (k, c) ch ->
          obj_get k target
          = res_value (validate c (path ++ [Key k]) (obj_get k props)))
    /\ validate (JoiObject p (Some ch) deps) path (JObj props)
       = match Object_dependencies deps target path with
         | Some e => reject (JObj target) [e]
         | None => finish (JObj target)
         end.
Proof.
  intros Hnd Hall Hkeys. rewrite validate_object_unfold.
  destruct (Object_children_ok path (compile_children ch) props [])
    as [t' [sp' [Hrun [Hout [Hin Hstrip]]]]].
  - now rewrite compile_children_keys.
  - now apply compile_children_accepts.
  - rewrite Hrun. unfold only_keys in Hkeys. rewrite Hkeys. simpl.
    assert (Hdel : forall k, obj_get k (delete_props sp' t') = obj_get k t').
    { apply obj_get_delete_props. intros k Hk.
      destruct (Hstrip k Hk) as [[]|]; auto. }
    exists (delete_props sp' t'). split; [|split].
    + intros k Hk. rewrite Hdel. apply Hout. now rewrite compile_children_keys.
    + intros k c Hkc. rewrite Hdel. apply (Hin k (validate c)).
      unfold compile_children. apply in_map_iff. now exists (k, c).
    + destruct (Object_dependencies deps (delete_props sp' t') path); reflexivity.
Qed.

(** *** The exclusive peers *)

(** [xor] looks at which peers are present, and at nothing else. *)
Lemma Object_xor_ext (peers : list string) (o1 o2 : Obj) (path : Path) :
  (forall k, In k peers -> present k o1 = present k o2) ->
  Object_xor peers o1 path = Object_xor peers o2 path.
Proof.
  intros Hext. unfold Object_xor.
  replace (filter (fun peer => hasOwnProperty peer o1
                               && negb (is_undefined (obj_get peer o1))) peers)
    with (filter (fun peer => hasOwnProperty peer o2
                              && negb (is_undefined (obj_get peer o2))) peers);
    [reflexivity|].
  apply filter_ext_in. intros k Hk. rewrite !hasOwnProperty_defined.
  symmetry. apply (Hext k Hk).
Qed.

(** For two peers: exactly one of them is present. *)
Lemma Object_xor_two (a b : string) (o : Obj) (path : Path) :
  Object_xor [a; b] o path = None <-> xorb (present a o) (present b o) = true.
Proof.
  unfold Object_xor, present. simpl. rewrite !hasOwnProperty_defined.
  destruct (negb (is_undefined (obj_get a o))), (negb (is_undefined (obj_get b o)));
    simpl; split; congruence.
Qed.

(** *** The rules of the fields *)

(** [Joi.string()] accepts an absent field and a string that is not
    empty. *)
Lemma accepts_string (path : Path) (v : JsValue) :
  accepts Joi.string path v <->
  v = JUndefined \/ exists s, v = JStr s /\ s <> EmptyString.
Proof.
  unfold accepts. split.
  - destruct v as [| | | |s| |]; simpl; try discriminate; auto.
    destruct s; simpl; [discriminate|]. intros _. right. eexists. split; eauto.
    discriminate.
  - intros [->|[s [-> Hs]]]; [reflexivity|].
    destruct s; [contradiction|reflexivity].
Qed.

(** [Joi.string().required()] accepts a string that is not empty, and
    nothing else. *)
Lemma accepts_required_string (path : Path) (v : JsValue) :
  accepts (Joi.string |> required) path v <-> exists s, v = JStr s /\ s <> EmptyString.
Proof.
  unfold accepts. split.
  - destruct v as [| | | |s| |]; simpl; try discriminate.
    destruct s; simpl; [discriminate|]. intros _. eexists. split; eauto.
    discriminate.
  - intros [s [-> Hs]]. destruct s; [contradiction|reflexivity].
Qed.

(** [Joi.boolean()] accepts an absent field, a boolean, and a string that
    spells one. *)
Lemma accepts_boolean (path : Path) (v : JsValue) :
  accepts Joi.boolean path v <->
  v = JUndefined
  \/ (exists b, v = JBool b)
  \/ (exists s, v = JStr s
                /\ (toLowerCase s = "true" \/ toLowerCase s = "false")).
Proof.
  unfold accepts. split.
  - destruct v as [| |b| |s| |]; try (simpl; discriminate); eauto.
    unfold Joi.boolean, validate, Any_validate, no_invalids, Boolean_base.
    destruct (String.eqb (toLowerCase s) "true") eqn:Et.
    + apply String.eqb_eq in Et. intros _. right. right. eauto.
    + destruct (String.eqb (toLowerCase s) "false") eqn:Ef; [|discriminate].
      apply String.eqb_eq in Ef. intros _. right. right. eauto.
  - intros [->|[[b ->]|[s [-> [E|E]]]]]; try reflexivity;
      unfold Joi.boolean, validate, Any_validate, no_invalids, Boolean_base;
      rewrite E; reflexivity.
Qed.

(** A string rule hands the value back as it is. *)
Lemma string_value (p : Presence) (path : Path) (v : JsValue) :
  res_value (validate (JoiString p) path v) = v.
Proof.
  destruct v as [| | | |s| |]; try destruct p; try reflexivity.
  all: destruct s; reflexivity.
Qed.

(** A required rule refuses an absent field. *)
Lemma required_refuses_undefined (schema : Schema) (path : Path) :
  ~ accepts (schema |> required) path JUndefined.
Proof. unfold accepts. rewrite validate_required_undefined. discriminate. Qed.

Lemma accepts_required (schema : Schema) (path : Path) (v : JsValue) :
  v <> JUndefined -> accepts schema path v -> accepts (schema |> required) path v.
Proof. unfold accepts. intros Hv. now rewrite validate_required_defined. Qed.

(** *** Joi.validate and the entry points *)

Lemma validate_error_None (v : JsValue) (schema : Schema) :
  error (Joi.validate v schema) = None <-> accepts schema [] v.
Proof.
  unfold Joi.validate, accepts, Errors_process. simpl.
  destruct (res_errors (validate schema [] v)); split; congruence.
Qed.

Lemma call_validateLocalAuthConfig (mw : Schema) (config : JsValue) :
  call mw (validateLocalAuthConfig config)
  = match error (Joi.validate config (localAuthenticationSchema (load mw))) with
    | Some e => Throws (ValidationError e)
    | None => Returns (value (Joi.validate config (localAuthenticationSchema (load mw))))
    end.
Proof.
  unfold call, validateLocalAuthConfig, bind, read.
  destruct (error (Joi.validate config (localAuthenticationSchema (load mw))));
    reflexivity.
Qed.

Lemma call_validateBasicAuthConfig (mw : Schema) (config : JsValue) :
  call mw (validateBasicAuthConfig config)
  = match error (Joi.validate config (basicAuthenticationSchema (load mw))) with
    | Some e => Throws (ValidationError e)
    | None => Returns (value (Joi.validate config (basicAuthenticationSchema (load mw))))
    end.
Proof.
  unfold call, validateBasicAuthConfig, bind, read.
  destruct (error (Joi.validate config (basicAuthenticationSchema (load mw))));
    reflexivity.
Qed.

Lemma call_validateJwtAuthConfig (mw : Schema) (config : JsValue) :
  call mw (validateJwtAuthConfig config)
  = match error (Joi.validate config (jwtAuthenticationSchema (load mw))) with
    | Some e => Throws (ValidationError e)
    | None => Returns (value (Joi.validate config (jwtAuthenticationSchema (load mw))))
    end.
Proof.
  unfold call, validateJwtAuthConfig, bind, read.
  destruct (error (Joi.validate config (jwtAuthenticationSchema (load mw))));
    reflexivity.
Qed.

(** An entry point throws when, and only when, its rule set refuses the
    candidate. *)
Lemma throws_when_refused (o : Outcome JsValue) (r : ValidationResult) :
  o = match error r with
      | Some e => Throws (ValidationError e)
      | None => Returns (value r)
      end ->
  error r <> None -> threw o.
Proof.
  intros -> Hr. destruct (error r) as [e|]; [|contradiction]. now exists e.
Qed.

(* ------------------------------------------------------------------ *)
(** ** The entry points: one outcome, no effect *)
(* ------------------------------------------------------------------ *)

(** C8. For every input, each of the three entry points either throws a
    [ValidationError] or returns the normalized value, never both: it
    throws the error of [Joi.validate] when there is one, and then gives
    back nothing of the value [Joi.validate] holds next to that error;
    it returns that value when there is no error. *)
Theorem C8_throw_or_return (mw : Schema) (config : JsValue) :
  one_or_the_other (call mw (validateLocalAuthConfig config))
                   (Joi.validate config (localAuthenticationSchema (load mw)))
  /\ one_or_the_other (call mw (validateBasicAuthConfig config))
                      (Joi.validate config (basicAuthenticationSchema (load mw)))
  /\ one_or_the_other (call mw (validateJwtAuthConfig config))
                      (Joi.validate config (jwtAuthenticationSchema (load mw))).
Proof.
  rewrite call_validateLocalAuthConfig, call_validateBasicAuthConfig,
    call_validateJwtAuthConfig.
  unfold one_or_the_other. repeat split.
  all: match goal with
       | |- context [error ?r] => destruct (error r) as [e|]
       end; [left; exists e; split; reflexivity | right; split; reflexivity].
Qed.





(* ------------------------------------------------------------------ *)
(** ** Required fields *)
(* ------------------------------------------------------------------ *)

(** The rule sets as the module builds them. *)
Lemma jwtRequestExtractorSchema_eq (mw : Schema) :
  jwtRequestExtractorSchema (load mw)
  = JoiObject Optional
      (Some [("authHeader", Joi.string); ("bodyField", Joi.string);
             ("cookie", Joi.string); ("header", Joi.string);
             ("queryParam", Joi.string)]) [].
Proof. reflexivity. Qed.

Lemma jwtAuthenticationSchema_eq (mw : Schema) :
  jwtAuthenticationSchema (load mw)
  = JoiObject Optional
      (Some ([("algorithms", JoiArray Optional [Joi.string]);
              ("audience", Joi.string);
              ("extractFrom", jwtRequestExtractorSchema (load mw));
              ("ignoreExpiration", Joi.boolean);
              ("issuer", Joi.string)]
             ++ ("secretOrKey", Joi.string |> required) :: [("verify", mw)])) [].
Proof. reflexivity. Qed.

Lemma basicAuthenticationSchema_eq (mw : Schema) :
  basicAuthenticationSchema (load mw)
  = JoiObject Optional (Some ([] ++ ("verify", mw |> required) :: [])) [].
Proof. reflexivity. Qed.

Lemma localAuthenticationSchema_eq (mw : Schema) :
  localAuthenticationSchema (load mw)
  = JoiObject Optional
      (Some ([("passwordField", Joi.string); ("usernameField", Joi.string)]
             ++ ("verify", mw |> required) :: [])) [].
Proof. reflexivity. Qed.

Lemma authenticationValidatorSchema_eq (mw : Schema) :
  authenticationValidatorSchema (load mw)
  = JoiObject Optional (Some [("strategy", mw |> required)]) [].
Proof. reflexivity. Qed.

(** [keys] replaces the required [strategy] of the base rule set by the
    optional one; [group] comes first. *)
Lemma apiAuthenticationValidatorSchema_eq (mw : Schema) :
  apiAuthenticationValidatorSchema (load mw)
  = JoiObject Optional
      (Some [("group", JoiAlternatives Optional
                         [JoiArray Optional [Joi.string]; Joi.string]);
             ("strategy", mw);
             ("use", Joi.string)])
      [Xor ["strategy"; "use"]].
Proof. reflexivity. Qed.

(** The error [Joi.validate] reports for an object whose first refused
    field is a required one that is absent. *)
Lemma required_field_error (p : Presence) (pre post : list (string * Schema))
    (k : string) (c : Schema) (deps : list Dependency) (props : Obj) :
  NoDup (map fst (pre ++ (k, c |> required) :: post)) ->
  fields_ok [] pre props ->
  obj_get k props = JUndefined ->
  error (Joi.validate (JObj props)
           (JoiObject p (Some (pre ++ (k, c |> required) :: post)) deps))
  = Some (mkJoiError [mkDetail any_required [Key k]]).
Proof.
  intros Hnd Hpre Hk. unfold Joi.validate. cbn [error].
  rewrite (object_first_error p pre post k (c |> required) deps [] props Hnd Hpre).
  - rewrite Hk. simpl app. rewrite validate_required_undefined. reflexivity.
  - rewrite Hk. apply required_refuses_undefined.
Qed.

(** C4 (amended). A JWT candidate without [secretOrKey] makes
    [validateJwtAuthConfig] throw a [ValidationError]; when the fields
    declared before [secretOrKey] (algorithms, audience, extractFrom,
    ignoreExpiration, issuer) each satisfy their rule, the error carries
    exactly the required-field violation at [secretOrKey]. *)
Theorem C4_secretOrKey_required (mw : Schema) (candidate : Obj) :
  obj_get "secretOrKey" candidate = JUndefined ->
  threw (call mw (validateJwtAuthConfig (JObj candidate)))
  /\ (fields_ok [] (before "secretOrKey" (children_of (jwtAuthenticationSchema (load mw))))
                candidate ->
      call mw (validateJwtAuthConfig (JObj candidate))
      = Throws (ValidationError (mkJoiError [mkDetail any_required [Key "secretOrKey"]]))).
Proof.
  intros Hk. split.
  - apply (throws_when_refused _ _ (call_validateJwtAuthConfig mw _)).
    rewrite validate_error_None, jwtAuthenticationSchema_eq.
    apply (object_child_refused _ _ _ _ _ "secretOrKey" (Joi.string |> required)).
    + distinct_keys.
    + apply in_or_app. right. now left.
    + rewrite Hk. apply required_refuses_undefined.
  - intros Hpre. rewrite call_validateJwtAuthConfig.
    rewrite jwtAuthenticationSchema_eq in *.
    rewrite (required_field_error Optional _ _ "secretOrKey" Joi.string [] candidate);
      auto.
    distinct_keys.
Qed.

Lemma C4_secretOrKey_required_witness :
  let candidate := [("issuer", JStr "accounts.example.com")] in
  threw (call middlewareConfigModel (validateJwtAuthConfig (JObj candidate)))
  /\ call middlewareConfigModel (validateJwtAuthConfig (JObj candidate))
     = Throws (ValidationError (mkJoiError [mkDetail any_required [Key "secretOrKey"]])).
Proof.
  intros candidate.
  destruct (C4_secretOrKey_required middlewareConfigModel candidate eq_refl)
    as [Hthrew Hdetail].
  split; [exact Hthrew|]. apply Hdetail. repeat constructor.
Defined.

(** The claim as the spec has it fails: a candidate without [secretOrKey]
    whose [audience] is a number is refused for [audience], the first
    violation in the order of the rule set, and the error names no required
    field. *)
Lemma C4_counterexample :
  let candidate := [("audience", JNum 5 0)] in
  obj_get "secretOrKey" candidate = JUndefined
  /\ call middlewareConfigModel (validateJwtAuthConfig (JObj candidate))
     = Throws (ValidationError (mkJoiError [mkDetail string_base [Key "audience"]])).
Proof. split; reflexivity. Qed.

(** C5 (amended). A Basic or a Local candidate without [verify] makes its
    entry point throw a [ValidationError].  For Basic the error carries
    exactly the required-field violation at [verify]; for Local it does so
    when [passwordField] and [usernameField], which the rule set has before
    [verify], each satisfy their rule. *)
Theorem C5_verify_required (mw : Schema) (candidate : Obj) :
  obj_get "verify" candidate = JUndefined ->
  call mw (validateBasicAuthConfig (JObj candidate))
  = Throws (ValidationError (mkJoiError [mkDetail any_required [Key "verify"]]))
  /\ threw (call mw (validateLocalAuthConfig (JObj candidate)))
  /\ (fields_ok [] (before "verify" (children_of (localAuthenticationSchema (load mw))))
                candidate ->
      call mw (validateLocalAuthConfig (JObj candidate))
      = Throws (ValidationError (mkJoiError [mkDetail any_required [Key "verify"]]))).
Proof.
  intros Hk. split; [|split].
  - rewrite call_validateBasicAuthConfig, basicAuthenticationSchema_eq.
    rewrite (required_field_error Optional [] [] "verify" mw [] candidate); auto.
    + distinct_keys.
    + constructor.
  - apply (throws_when_refused _ _ (call_validateLocalAuthConfig mw _)).
    rewrite validate_error_None, localAuthenticationSchema_eq.
    apply (object_child_refused _ _ _ _ _ "verify" (mw |> required)).
    + distinct_keys.
    + apply in_or_app. right. now left.
    + rewrite Hk. apply required_refuses_undefined.
  - intros Hpre. rewrite call_validateLocalAuthConfig.
    rewrite localAuthenticationSchema_eq in *.
    rewrite (required_field_error Optional _ _ "verify" mw [] candidate); auto.
    distinct_keys.
Qed.

Lemma C5_verify_required_witness :
  let candidate := [("usernameField", JStr "email")] in
  call middlewareConfigModel (validateBasicAuthConfig (JObj candidate))
  = Throws (ValidationError (mkJoiError [mkDetail any_required [Key "verify"]]))
  /\ threw (call middlewareConfigModel (validateLocalAuthConfig (JObj candidate)))
  /\ call middlewareConfigModel (validateLocalAuthConfig (JObj candidate))
     = Throws (ValidationError (mkJoiError [mkDetail any_required [Key "verify"]])).
Proof.
  intros candidate.
  destruct (C5_verify_required middlewareConfigModel candidate eq_refl)
    as [Hbasic [Hthrew Hdetail]].
  split; [exact Hbasic|]. split; [exact Hthrew|]. apply Hdetail. repeat constructor.
Defined.

(** The claim as the spec has it fails for Local: a candidate without
    [verify] whose [passwordField] is a number is refused for
    [passwordField], and the error names no required field. *)
Lemma C5_counterexample :
  let candidate := [("passwordField", JNum 5 0)] in
  obj_get "verify" candidate = JUndefined
  /\ call middlewareConfigModel (validateLocalAuthConfig (JObj candidate))
     = Throws (ValidationError (mkJoiError [mkDetail string_base [Key "passwordField"]])).
Proof. split; reflexivity. Qed.

(* ------------------------------------------------------------------ *)
(** ** Unknown keys *)
(* ------------------------------------------------------------------ *)

(** C10. A candidate that carries a key outside the fields its rule set
    declares is refused, never stripped of the key nor accepted with it:
    the three entry points throw a [ValidationError], [Joi.validate]
    reports an error for the two exported rule sets, and an unknown key
    inside [extractFrom] makes [validateJwtAuthConfig] throw as well. *)
Theorem C10_unknown_keys_rejected (mw : Schema) (candidate : Obj) (k : string) :
  In k (obj_keys candidate) ->
  (~ In k (declared_keys (localAuthenticationSchema (load mw))) ->
   threw (call mw (validateLocalAuthConfig (JObj candidate))))
  /\ (~ In k (declared_keys (basicAuthenticationSchema (load mw))) ->
      threw (call mw (validateBasicAuthConfig (JObj candidate))))
  /\ (~ In k (declared_keys (jwtAuthenticationSchema (load mw))) ->
      threw (call mw (validateJwtAuthConfig (JObj candidate))))
  /\ (~ In k (declared_keys (authenticationValidatorSchema (load mw))) ->
      error (Joi.validate (JObj candidate) (authenticationValidatorSchema (load mw)))
      <> None)
  /\ (~ In k (declared_keys (apiAuthenticationValidatorSchema (load mw))) ->
      error (Joi.validate (JObj candidate) (apiAuthenticationValidatorSchema (load mw)))
      <> None)
  /\ (~ In k (declared_keys (jwtRequestExtractorSchema (load mw))) ->
      forall outer, obj_get "extractFrom" outer = JObj candidate ->
      threw (call mw (validateJwtAuthConfig (JObj outer)))).
Proof.
  intros Hin. repeat split; intros Hnot.
  - apply (throws_when_refused _ _ (call_validateLocalAuthConfig mw _)).
    rewrite validate_error_None, localAuthenticationSchema_eq.
    now apply (object_unknown_key _ _ _ _ _ k).
  - apply (throws_when_refused _ _ (call_validateBasicAuthConfig mw _)).
    rewrite validate_error_None, basicAuthenticationSchema_eq.
    now apply (object_unknown_key _ _ _ _ _ k).
  - apply (throws_when_refused _ _ (call_validateJwtAuthConfig mw _)).
    rewrite validate_error_None, jwtAuthenticationSchema_eq.
    now apply (object_unknown_key _ _ _ _ _ k).
  - rewrite validate_error_None, authenticationValidatorSchema_eq.
    now apply (object_unknown_key _ _ _ _ _ k).
  - rewrite validate_error_None, apiAuthenticationValidatorSchema_eq.
    now apply (object_unknown_key _ _ _ _ _ k).
  - intros outer Hex.
    apply (throws_when_refused _ _ (call_validateJwtAuthConfig mw _)).
    rewrite validate_error_None, jwtAuthenticationSchema_eq.
    apply (object_child_refused _ _ _ _ _ "extractFrom"
             (jwtRequestExtractorSchema (load mw))).
    + distinct_keys.
    + simpl. tauto.
    + rewrite Hex, jwtRequestExtractorSchema_eq.
      now apply (object_unknown_key _ _ _ _ _ k).
Qed.

Lemma C10_unknown_keys_rejected_witness :
  let candidate := [("realm", JStr "gateway")] in
  let outer := [("secretOrKey", JStr "secret"); ("extractFrom", JObj candidate)] in
  threw (call middlewareConfigModel (validateLocalAuthConfig (JObj candidate)))
  /\ threw (call middlewareConfigModel (validateBasicAuthConfig (JObj candidate)))
  /\ threw (call middlewareConfigModel (validateJwtAuthConfig (JObj candidate)))
  /\ error (Joi.validate (JObj candidate)
              (authenticationValidatorSchema (load middlewareConfigModel))) <> None
  /\ error (Joi.validate (JObj candidate)
              (apiAuthenticationValidatorSchema (load middlewareConfigModel))) <> None
  /\ threw (call middlewareConfigModel (validateJwtAuthConfig (JObj outer))).
Proof.
  intros candidate outer.
  assert (Hin : In "realm" (obj_keys candidate)) by (simpl; tauto).
  destruct (C10_unknown_keys_rejected middlewareConfigModel candidate "realm" Hin)
    as [H1 [H2 [H3 [H4 [H5 H6]]]]].
  assert (Hnot : forall declared,
             forallb (fun d => negb (String.eqb d "realm")) declared = true ->
             ~ In "realm" declared).
  { intros declared Hall Hd. rewrite forallb_forall in Hall.
    specialize (Hall _ Hd). now rewrite String.eqb_refl in Hall. }
  repeat split;
    [apply H1 | apply H2 | apply H3 | apply H4 | apply H5
    | apply (fun h => H6 h outer); [|reflexivity]];
    apply Hnot; reflexivity.
Defined.

(* ------------------------------------------------------------------ *)
(** ** What an accepted object looks like *)
(* ------------------------------------------------------------------ *)

(** The value of an accepted object: an object that holds each declared
    field at its rule's value, and that satisfies the dependencies. *)
Lemma object_accepted_value (p : Presence) (ch : list (string * Schema))
    (deps : list Dependency) (path : Path) (props : Obj) :
  NoDup (map fst ch) ->
  accepts (JoiObject p (Some ch) deps) path (JObj props) ->
  exists target,
    res_value (validate (JoiObject p (Some ch) deps) path (JObj props)) = JObj target
    /\ Object_dependencies deps target path = None
    /\ (forall k, ~ In k (map fst ch) -> obj_get k target = obj_get k props)
    /\ (forall k c, In (k, c) ch ->
          accepts c (path ++ [Key k]) (obj_get k props)
          /\ obj_get k target
             = res_value (validate c (path ++ [Key k]) (obj_get k props))).
Proof.
  intros Hnd Hacc.
  destruct (object_accepted_inv p ch deps path props Hnd Hacc) as [Hall Hkeys].
  destruct (object_fields_accepted p ch deps path props Hnd Hall Hkeys)
    as [target [Hout [Hin Hres]]].
  exists target. unfold accepts in Hacc. rewrite Hres in *.
  destruct (Object_dependencies deps target path); [discriminate|].
  split; [reflexivity|]. split; [reflexivity|]. split; [exact Hout|].
  intros k c Hkc. split.
  - unfold fields_ok in Hall. rewrite Forall_forall in Hall.
    apply (Hall (k, c) Hkc).
  - now apply Hin.
Qed.

(** An accepted field is present in the value exactly when it is present in
    the candidate. *)
Lemma accepted_field_present (c : Schema) (path : Path) (k : string)
    (props target : Obj) :
  accepts c path (obj_get k props) ->
  obj_get k target = res_value (validate c path (obj_get k props)) ->
  present k target = present k props.
Proof.
  unfold present, accepts. intros Hacc ->.
  now rewrite validate_keeps_presence.
Qed.

(** An array of strings that is accepted comes back as it is. *)
Lemma Array_checkItems_strings (q : Presence) (wasArray : bool) (path : Path)
    (items : list JsValue) :
  forall i items',
    Array_checkItems [validate (JoiString q)] wasArray path i items = (items', []) ->
    items' = items.
Proof.
  induction items as [|item rest IH]; intros i items'.
  - simpl. now intros [= <-].
  - destruct item as [| | | |s| |]; try (simpl; discriminate).
    destruct s as [|a s]; [simpl; discriminate|].
    simpl.
    destruct (Array_checkItems [Any_validate q String_invalids String_base]
                wasArray path (S i) rest) as [rest' es] eqn:Er.
    intros [= <- ->]. f_equal. now apply (IH (S i)).
Qed.

Lemma validate_array_unfold (p : Presence) (inclusions : list Schema) (path : Path)
    (elements : list JsValue) :
  validate (JoiArray p inclusions) path (JArr elements)
  = mkResult (JArr (fst (Array_checkItems (map validate inclusions) true path 0 elements)))
             (snd (Array_checkItems (map validate inclusions) true path 0 elements)).
Proof.
  cbn [validate]. unfold Any_validate, no_invalids, Array_base, Array_safeParse.
  now destruct (Array_checkItems (map validate inclusions) true path 0 elements).
Qed.

Lemma array_of_strings_value (p q : Presence) (path : Path) (elements : list JsValue) :
  accepts (JoiArray p [JoiString q]) path (JArr elements) ->
  res_value (validate (JoiArray p [JoiString q]) path (JArr elements)) = JArr elements.
Proof.
  unfold accepts. rewrite validate_array_unfold. cbn [map res_errors res_value].
  destruct (Array_checkItems [validate (JoiString q)] true path 0 elements)
    as [items' es] eqn:E.
  simpl. intros ->. f_equal.
  now apply (Array_checkItems_strings q true path elements 0).
Qed.

(** The array rule over strings accepts the arrays of strings that are not
    empty. *)
Lemma Array_checkItems_accepts (q : Presence) (wasArray : bool) (path : Path)
    (elements : list JsValue) :
  forall i,
    snd (Array_checkItems [validate (JoiString q)] wasArray path i elements) = []
    <-> Forall nonempty_string elements.
Proof.
  induction elements as [|item rest IH]; intros i.
  - simpl. split; auto.
  - destruct item as [| | | |s| |];
      try (simpl; split; [discriminate | intros H; inversion H as [|? ? [s' [Hs _]] _];
                                         discriminate Hs]).
    destruct s as [|a s].
    + simpl. split; [discriminate|].
      intros H. inversion H as [|? ? [s' [Hs Hne]] _]. injection Hs as <-.
      contradiction.
    + specialize (IH (S i)). simpl in *.
      destruct (Array_checkItems [Any_validate q String_invalids String_base]
                  wasArray path (S i) rest) as [rest' es].
      simpl in *. rewrite IH. split.
      * intros H. constructor; auto. eexists. split; eauto. discriminate.
      * intros H. now inversion H.
Qed.

Lemma accepts_string_array (path : Path) (elements : list JsValue) :
  accepts (Joi.array |> items [Joi.string]) path (JArr elements)
  <-> Forall nonempty_string elements.
Proof.
  unfold accepts. change (Joi.array |> items [Joi.string])
    with (JoiArray Optional [JoiString Optional]).
  rewrite validate_array_unfold. cbn [map res_errors].
  apply Array_checkItems_accepts.
Qed.




(* ------------------------------------------------------------------ *)
(** ** ApiAuthenticationConfig: strategy, use and group *)
(* ------------------------------------------------------------------ *)

(** The exclusive peers of an accepted object are judged as they stand in
    the candidate. *)
Lemma xor_on_candidate (mw : Schema) (candidate target : Obj) :
  (forall k c, In (k, c) (children_of (apiAuthenticationValidatorSchema (load mw))) ->
     accepts c ([] ++ [Key k]) (obj_get k candidate)
     /\ obj_get k target = res_value (validate c ([] ++ [Key k]) (obj_get k candidate))) ->
  Object_dependencies [Xor ["strategy"; "use"]] target [] = None
  <-> xorb (present "strategy" candidate) (present "use" candidate) = true.
Proof.
  intros Hfields.
  assert (Hp : forall k, In k ["strategy"; "use"] ->
               present k target = present k candidate).
  { intros k [<-|[<-|[]]].
    - destruct (Hfields "strategy" mw) as [Ha Hv]; [simpl; tauto|].
      eapply accepted_field_present; eauto.
    - destruct (Hfields "use" Joi.string) as [Ha Hv]; [simpl; tauto|].
      eapply accepted_field_present; eauto. }
  rewrite <- Object_xor_two with (path := []).
  rewrite <- (Object_xor_ext _ target candidate [] Hp).
  simpl. destruct (Object_xor ["strategy"; "use"] target []); split; congruence.
Qed.

(** C1 (amended). Validation against [apiAuthenticationValidatorSchema]
    succeeds only if exactly one of [strategy] and [use] is present: a
    candidate with neither and a candidate with both fail, whatever else
    they hold.  For a candidate with no key besides [group], [strategy] and
    [use] whose fields each satisfy their rule ([use] a string that is not
    empty, [strategy] accepted by the middleware rule set, [group] accepted
    by its rule), validation succeeds if and only if exactly one of
    [strategy] and [use] is present. *)
Theorem C1_strategy_xor_use (mw : Schema) (candidate : Obj) :
  let schema := apiAuthenticationValidatorSchema (load mw) in
  let succeeds := error (Joi.validate (JObj candidate) schema) = None in
  let exactly_one :=
    xorb (present "strategy" candidate) (present "use" candidate) = true in
  (succeeds -> exactly_one)
  /\ (fields_ok [] (children_of schema) candidate ->
      only_keys (declared_keys schema) candidate ->
      (succeeds <-> exactly_one)).
Proof.
  intros schema succeeds exactly_one. subst schema succeeds exactly_one.
  rewrite validate_error_None.
  assert (Hnd : NoDup (map fst (children_of (apiAuthenticationValidatorSchema (load mw)))))
    by distinct_keys.
  assert (Honly_if :
            accepts (apiAuthenticationValidatorSchema (load mw)) [] (JObj candidate) ->
            xorb (present "strategy" candidate) (present "use" candidate) = true).
  { rewrite apiAuthenticationValidatorSchema_eq in *. intros Hacc.
    destruct (object_accepted_value _ _ _ _ _ Hnd Hacc)
      as [target [_ [Hdeps [_ Hfields]]]].
    now apply (xor_on_candidate mw candidate target). }
  split; [exact Honly_if|].
  intros Hfields Hkeys. split; [exact Honly_if|].
  intros Hone. rewrite apiAuthenticationValidatorSchema_eq in *.
  unfold declared_keys in Hkeys. cbn [children_of] in *.
  destruct (object_fields_accepted Optional _ [Xor ["strategy"; "use"]] [] candidate
              Hnd Hfields Hkeys) as [target [_ [Hin Hres]]].
  unfold accepts. rewrite Hres.
  assert (Hdeps : Object_dependencies [Xor ["strategy"; "use"]] target [] = None).
  { apply (xor_on_candidate mw candidate target); auto.
    intros k c Hkc. split; [|now apply Hin].
    unfold fields_ok in Hfields. rewrite Forall_forall in Hfields.
    apply (Hfields (k, c) Hkc). }
  now rewrite Hdeps.
Qed.

Lemma C1_strategy_xor_use_witness :
  let schema := apiAuthenticationValidatorSchema (load middlewareConfigModel) in
  let with_use := [("use", JStr "foo")] in
  let with_strategy := [("strategy", JObj [("name", JStr "jwt")])] in
  let with_both := [("strategy", JObj [("name", JStr "jwt")]); ("use", JStr "foo")] in
  error (Joi.validate (JObj with_use) schema) = None
  /\ error (Joi.validate (JObj with_strategy) schema) = None
  /\ error (Joi.validate (JObj []) schema) <> None
  /\ error (Joi.validate (JObj with_both) schema) <> None.
Proof.
  intros schema with_use with_strategy with_both.
  assert (Hok : forall candidate,
             fields_ok [] (children_of schema) candidate ->
             only_keys (declared_keys schema) candidate ->
             xorb (present "strategy" candidate) (present "use" candidate) = true ->
             error (Joi.validate (JObj candidate) schema) = None).
  { intros candidate Hf Hk Hone.
    now apply (proj2 (C1_strategy_xor_use middlewareConfigModel candidate) Hf Hk). }
  assert (Hno : forall candidate,
             xorb (present "strategy" candidate) (present "use" candidate) = false ->
             error (Joi.validate (JObj candidate) schema) <> None).
  { intros candidate Hone Hs.
    apply (proj1 (C1_strategy_xor_use middlewareConfigModel candidate)) in Hs.
    congruence. }
  split; [|split; [|split]];
    [apply Hok | apply Hok | apply Hno | apply Hno];
    try reflexivity; repeat constructor.
Defined.

(** The claim as the spec has it fails: [use] alone, and a string, is not
    enough.  joi's string rule refuses the empty string. *)
Lemma C1_counterexample :
  let schema := apiAuthenticationValidatorSchema (load middlewareConfigModel) in
  let candidate := [("use", JStr EmptyString)] in
  xorb (present "strategy" candidate) (present "use" candidate) = true
  /\ error (Joi.validate (JObj candidate) schema)
     = Some (mkJoiError [mkDetail any_empty [Key "use"]]).
Proof. split; reflexivity. Qed.




(* ------------------------------------------------------------------ *)
(** ** LocalAuthentication: no defaults *)
(* ------------------------------------------------------------------ *)

Lemma fields_ok_without (path : Path) (key : string) (c : Schema)
    (children : list (string * Schema)) (o : Obj) :
  (forall c', In (key, c') children -> c' = c) ->
  accepts c (path ++ [Key key]) (obj_get key o) ->
  fields_ok path (without key children) o ->
  fields_ok path children o.
Proof.
  unfold fields_ok, without. rewrite !Forall_forall.
  intros Hc Hkey Hrest [k c'] Hin. simpl.
  destruct (String.eqb k key) eqn:E.
  - apply String.eqb_eq in E. subst k. now rewrite (Hc c' Hin).
  - apply (Hrest (k, c')). apply filter_In. split; auto. simpl. now rewrite E.
Qed.

(** C2 (amended). For a Local candidate whose [verify] satisfies its
    rule, that omits [usernameField] and [passwordField] and has no other
    key, [validateLocalAuthConfig] succeeds, and the value it returns still
    has neither [usernameField] nor [passwordField]: the rule set fills in
    no default.  The returned value reads like the candidate at every key
    but [verify], which holds what the middleware rule set made of it. *)
Theorem C2_no_defaults (mw : Schema) (candidate : Obj) :
  accepts (mw |> required) [Key "verify"] (obj_get "verify" candidate) ->
  obj_get "usernameField" candidate = JUndefined ->
  obj_get "passwordField" candidate = JUndefined ->
  only_keys (declared_keys (localAuthenticationSchema (load mw))) candidate ->
  exists result,
    call mw (validateLocalAuthConfig (JObj candidate)) = Returns (JObj result)
    /\ obj_get "usernameField" result = JUndefined
    /\ obj_get "passwordField" result = JUndefined
    /\ (forall k, k <> "verify" -> obj_get k result = obj_get k candidate).
Proof.
  intros Hverify Huser Hpass Hkeys.
  assert (Hnd : NoDup (map fst (children_of (localAuthenticationSchema (load mw)))))
    by distinct_keys.
  assert (Hfields : fields_ok [] (children_of (localAuthenticationSchema (load mw)))
                              candidate).
  { repeat constructor; simpl; [rewrite Hpass | rewrite Huser | exact Hverify];
      reflexivity. }
  rewrite call_validateLocalAuthConfig.
  rewrite localAuthenticationSchema_eq in *.
  unfold declared_keys in Hkeys. cbn [children_of] in *.
  destruct (object_fields_accepted Optional _ [] [] candidate Hnd Hfields Hkeys)
    as [target [Hout [Hin Hres]]].
  unfold Joi.validate. rewrite Hres. simpl.
  assert (Hstring : forall k, In k ["passwordField"; "usernameField"] ->
                    obj_get k target = obj_get k candidate).
  { intros k Hk. rewrite (Hin k Joi.string).
    - apply string_value.
    - simpl in *. intuition (subst; auto). }
  exists target. split; [reflexivity|].
  split; [rewrite Hstring, Huser; simpl; auto|].
  split; [rewrite Hstring, Hpass; simpl; auto|].
  intros k Hk.
  destruct (in_dec string_dec k ["passwordField"; "usernameField"]) as [Hd|Hd].
  - now apply Hstring.
  - apply Hout. simpl in *. intuition.
Qed.

Lemma C2_no_defaults_witness :
  let candidate := [("verify", JObj [("name", JStr "verifyUser")])] in
  exists result,
    call middlewareConfigModel (validateLocalAuthConfig (JObj candidate))
    = Returns (JObj result)
    /\ obj_get "usernameField" result = JUndefined
    /\ obj_get "passwordField" result = JUndefined
    /\ (forall k, k <> "verify" -> obj_get k result = obj_get k candidate).
Proof.
  intros candidate.
  apply (C2_no_defaults middlewareConfigModel candidate); reflexivity.
Defined.

(** The claim as the spec has it fails: the returned value has no
    [usernameField] and no [passwordField], where the claim has
    ["username"] and ["password"]. *)
Lemma C2_counterexample :
  let candidate := [("verify", JObj [("name", JStr "verifyUser")])] in
  call middlewareConfigModel (validateLocalAuthConfig (JObj candidate))
  = Returns (JObj candidate)
  /\ obj_get "usernameField" candidate <> JStr "username"
  /\ obj_get "passwordField" candidate <> JStr "password".
Proof. repeat split; simpl; discriminate. Qed.

(* ------------------------------------------------------------------ *)
(** ** JWTAuthentication *)
(* ------------------------------------------------------------------ *)

(** An accepted JWT candidate: what the call returns. *)
Lemma jwt_accepted (mw : Schema) (candidate : Obj) :
  fields_ok [] (children_of (jwtAuthenticationSchema (load mw))) candidate ->
  only_keys (declared_keys (jwtAuthenticationSchema (load mw))) candidate ->
  exists result,
    call mw (validateJwtAuthConfig (JObj candidate)) = Returns (JObj result)
    /\ (forall k c, In (k, c) (children_of (jwtAuthenticationSchema (load mw))) ->
          obj_get k result = res_value (validate c [Key k] (obj_get k candidate))).
Proof.
  intros Hfields Hkeys.
  assert (Hnd : NoDup (map fst (children_of (jwtAuthenticationSchema (load mw)))))
    by distinct_keys.
  rewrite call_validateJwtAuthConfig.
  rewrite jwtAuthenticationSchema_eq in *.
  unfold declared_keys in Hkeys. cbn [children_of] in *.
  destruct (object_fields_accepted Optional _ [] [] candidate Hnd Hfields Hkeys)
    as [target [_ [Hin Hres]]].
  unfold Joi.validate. rewrite Hres. simpl.
  exists target. split; [reflexivity|]. exact Hin.
Qed.

(** *** JWTRequestExtractor *)

Lemma only_keys_intro (declared : list string) (o : Obj) :
  Forall (fun k => In k declared) (obj_keys o) -> only_keys declared o.
Proof.
  unfold only_keys, unprocessed. intros Hall.
  induction (obj_keys o) as [|k ks IH]; simpl; auto.
  inversion Hall as [|? ? Hk Hks]; subst.
  apply existsb_eqb_In in Hk. rewrite Hk. simpl. auto.
Qed.

(** Whatever location is read from such an extractor is absent or a string
    that is not empty. *)
Lemma locations_ok_get (mw : Schema) (extractor : Obj) (k : string) :
  locations_ok mw extractor ->
  obj_get k extractor = JUndefined
  \/ exists s, obj_get k extractor = JStr s /\ s <> EmptyString.
Proof.
  unfold locations_ok. induction extractor as [|[k' v] rest IH]; simpl; auto.
  intros Hall. inversion Hall as [|? ? [_ Hv] Hrest]; subst.
  destruct (String.eqb k' k); auto.
Qed.

(** The extractor rule accepts any number of locations at once, and hands
    each of them back as it is. *)
Lemma extractor_accepted (mw : Schema) (path : Path) (extractor : Obj) :
  locations_ok mw extractor ->
  exists target,
    validate (jwtRequestExtractorSchema (load mw)) path (JObj extractor)
    = finish (JObj target)
    /\ forall k, obj_get k target = obj_get k extractor.
Proof.
  intros Hloc.
  assert (Hnd : NoDup (map fst (children_of (jwtRequestExtractorSchema (load mw)))))
    by distinct_keys.
  assert (Hfields : fields_ok path (children_of (jwtRequestExtractorSchema (load mw)))
                              extractor).
  { unfold fields_ok. rewrite Forall_forall. intros [k c] Hin.
    assert (c = Joi.string) as ->.
    { simpl in Hin. repeat (destruct Hin as [Hin|Hin]; [now inversion Hin|]).
      contradiction. }
    apply accepts_string. apply (locations_ok_get mw extractor k Hloc). }
  assert (Hkeys : only_keys (declared_keys (jwtRequestExtractorSchema (load mw))) extractor).
  { apply only_keys_intro. unfold obj_keys. rewrite Forall_map.
    revert Hloc. apply Forall_impl. tauto. }
  rewrite jwtRequestExtractorSchema_eq in *.
  unfold declared_keys in Hkeys. cbn [children_of] in *.
  destruct (object_fields_accepted Optional _ [] path extractor Hnd Hfields Hkeys)
    as [target [Hout [Hin Hres]]].
  exists target. split; [exact Hres|].
  intros k.
  destruct (in_dec string_dec k
              ["authHeader"; "bodyField"; "cookie"; "header"; "queryParam"]) as [Hd|Hd].
  - rewrite (Hin k Joi.string).
    + apply string_value.
    + simpl in *. intuition (subst; auto).
  - now apply Hout.
Qed.

(** A candidate whose optional fields are typed as the interface has them
    satisfies the rules of those fields. *)
Lemma JWTAuthentication_options_ok (mw : Schema) (candidate : Obj) :
  JWTAuthentication_options mw candidate ->
  fields_ok [] (without "secretOrKey" (children_of (jwtAuthenticationSchema (load mw))))
            candidate.
Proof.
  intros [Halg [Haud [Hex [Hign [Hiss Hverify]]]]].
  repeat constructor; cbn [fst snd app].
  - destruct Halg as [->|[l [-> Hl]]]; [reflexivity|].
    now apply accepts_string_array.
  - apply accepts_string. exact Haud.
  - destruct Hex as [->|[extractor [-> Hloc]]]; [reflexivity|].
    destruct (extractor_accepted mw [Key "extractFrom"] extractor Hloc) as [t [Hres _]].
    change (res_errors (validate (jwtRequestExtractorSchema (load mw))
                          [Key "extractFrom"] (JObj extractor)) = []).
    now rewrite Hres.
  - apply accepts_boolean. destruct Hign as [->|Hb]; auto.
  - apply accepts_string. exact Hiss.
  - exact Hverify.
Qed.

(** C6 (amended). For a JWT candidate whose [secretOrKey] is a string
    that is not empty, whose other fields each satisfy their rule and that
    has no undeclared key, [validateJwtAuthConfig] succeeds and the value it
    returns has the same [secretOrKey]. *)
Theorem C6_secretOrKey_kept (mw : Schema) (candidate : Obj) (secret : string) :
  obj_get "secretOrKey" candidate = JStr secret ->
  secret <> EmptyString ->
  fields_ok [] (without "secretOrKey" (children_of (jwtAuthenticationSchema (load mw))))
            candidate ->
  only_keys (declared_keys (jwtAuthenticationSchema (load mw))) candidate ->
  exists result,
    call mw (validateJwtAuthConfig (JObj candidate)) = Returns (JObj result)
    /\ obj_get "secretOrKey" result = JStr secret.
Proof.
  intros Hsecret Hne Hothers Hkeys.
  destruct (jwt_accepted mw candidate) as [result [Hcall Hin]]; auto.
  - apply (fields_ok_without [] "secretOrKey" (Joi.string |> required)); auto.
    + simpl. intros c' H. repeat (destruct H as [H|H]; [now inversion H|]).
      contradiction.
    + rewrite Hsecret. apply accepts_required_string. eauto.
  - exists result. split; [exact Hcall|].
    rewrite (Hin "secretOrKey" (Joi.string |> required)).
    + rewrite Hsecret. apply string_value.
    + simpl. tauto.
Qed.

Lemma C6_secretOrKey_kept_witness :
  let candidate := [("secretOrKey", JStr "s3cr3t"); ("issuer", JStr "accounts.example.com");
                    ("algorithms", JArr [JStr "HS256"; JStr "HS384"]);
                    ("ignoreExpiration", JBool false)] in
  exists result,
    call middlewareConfigModel (validateJwtAuthConfig (JObj candidate))
    = Returns (JObj result)
    /\ obj_get "secretOrKey" result = JStr "s3cr3t".
Proof.
  intros candidate.
  apply (C6_secretOrKey_kept middlewareConfigModel candidate "s3cr3t");
    [reflexivity | discriminate | repeat constructor | reflexivity].
Defined.

(** The claim as the spec has it fails: [secretOrKey] present, and a
    string, is not enough.  joi's string rule refuses the empty string. *)
Lemma C6_counterexample :
  let candidate := [("secretOrKey", JStr EmptyString)] in
  call middlewareConfigModel (validateJwtAuthConfig (JObj candidate))
  = Throws (ValidationError (mkJoiError [mkDetail any_empty [Key "secretOrKey"]])).
Proof. reflexivity. Qed.

(** C7 (amended). For a JWT candidate whose [extractFrom] sets any number
    of the five extraction locations, each to a string that is not empty,
    and that is otherwise valid (the other fields satisfy their rules, no
    undeclared key), [validateJwtAuthConfig] succeeds: no exclusivity is
    enforced among the locations, and the returned [extractFrom] reads every
    location as the candidate's does. *)
Theorem C7_locations_not_exclusive (mw : Schema) (candidate extractor : Obj) :
  obj_get "extractFrom" candidate = JObj extractor ->
  locations_ok mw extractor ->
  fields_ok [] (without "extractFrom" (children_of (jwtAuthenticationSchema (load mw))))
            candidate ->
  only_keys (declared_keys (jwtAuthenticationSchema (load mw))) candidate ->
  exists result extractor',
    call mw (validateJwtAuthConfig (JObj candidate)) = Returns (JObj result)
    /\ obj_get "extractFrom" result = JObj extractor'
    /\ forall k, obj_get k extractor' = obj_get k extractor.
Proof.
  intros Hex Hloc Hothers Hkeys.
  destruct (extractor_accepted mw [Key "extractFrom"] extractor Hloc)
    as [extractor' [Hres Hsame]].
  destruct (jwt_accepted mw candidate) as [result [Hcall Hin]]; auto.
  - apply (fields_ok_without [] "extractFrom" (jwtRequestExtractorSchema (load mw)));
      auto.
    + simpl. intros c' H. repeat (destruct H as [H|H]; [now inversion H|]).
      contradiction.
    + rewrite Hex. unfold accepts. simpl app. now rewrite Hres.
  - exists result, extractor'. split; [exact Hcall|]. split; [|exact Hsame].
    rewrite (Hin "extractFrom" (jwtRequestExtractorSchema (load mw))).
    + rewrite Hex, Hres. reflexivity.
    + simpl. tauto.
Qed.

Lemma C7_locations_not_exclusive_witness :
  let extractor := [("header", JStr "x-access-token"); ("cookie", JStr "jwt");
                    ("queryParam", JStr "token")] in
  let candidate := [("secretOrKey", JStr "s3cr3t"); ("extractFrom", JObj extractor)] in
  exists result extractor',
    call middlewareConfigModel (validateJwtAuthConfig (JObj candidate))
    = Returns (JObj result)
    /\ obj_get "extractFrom" result = JObj extractor'
    /\ forall k, obj_get k extractor' = obj_get k extractor.
Proof.
  intros extractor candidate.
  apply (C7_locations_not_exclusive middlewareConfigModel candidate extractor);
    [reflexivity | | repeat constructor | reflexivity].
  repeat constructor; simpl; try tauto; eexists; split; try reflexivity; discriminate.
Defined.

(** The claim as the spec has it fails: two locations, each a string, and a
    candidate that is valid otherwise, yet the call throws.  It is the empty
    string that is refused, not the two locations together. *)
Lemma C7_counterexample :
  let extractor := [("header", JStr EmptyString); ("cookie", JStr "jwt")] in
  let candidate := [("secretOrKey", JStr "s3cr3t"); ("extractFrom", JObj extractor)] in
  call middlewareConfigModel (validateJwtAuthConfig (JObj candidate))
  = Throws (ValidationError
              (mkJoiError [mkDetail any_empty [Key "extractFrom"; Key "header"]])).
Proof. reflexivity. Qed.

(* ------------------------------------------------------------------ *)
(** ** Further properties of the rule sets and the entry points *)
(* ------------------------------------------------------------------ *)

(** An error tree always has a leaf. *)
Lemma leaves_nonempty : forall e, leaves e <> [].
Proof.
  fix IH 1. intros [t p reason]. destruct reason as [|r rs].
  - simpl. discriminate.
  - simpl. specialize (IH r). destruct (leaves r); [contradiction|discriminate].
Qed.

Lemma Errors_process_details (errors : list Err) (e : JoiError) :
  Errors_process errors = Some e -> details e <> [].
Proof.
  destruct errors as [|x xs]; [discriminate|].
  intros [= <-]. simpl. pose proof (leaves_nonempty x).
  destruct (leaves x); [contradiction|discriminate].
Qed.

(** An object rule with children reads a candidate that is no object as an
    error at the rule's own path, and a string that spells an object as
    that object. *)
Lemma validate_object_not_object (p : Presence) (ch : list (string * Schema))
    (deps : list Dependency) (path : Path) (v : JsValue) :
  v <> JUndefined -> reads_as_object v = None ->
  validate (JoiObject p (Some ch) deps) path v = reject v [MkErr object_base path []].
Proof.
  intros Hv Hr. cbn [validate]. unfold Any_validate, no_invalids, Object_base.
  destruct v as [| | | |s| |]; try contradiction; try reflexivity.
  - unfold Object_safeParse. simpl in Hr.
    destruct (JSON_parse s) as [[]|]; try reflexivity. discriminate.
  - discriminate.
Qed.

Lemma validate_object_reads (p : Presence) (ch : list (string * Schema))
    (deps : list Dependency) (path : Path) (v : JsValue) (props : Obj) :
  reads_as_object v = Some props ->
  validate (JoiObject p (Some ch) deps) path v
  = validate (JoiObject p (Some ch) deps) path (JObj props).
Proof.
  intros Hr. destruct v as [| | | |s| |]; try discriminate.
  - cbn [validate]. unfold Any_validate, no_invalids, Object_base, Object_safeParse.
    simpl in Hr. destruct (JSON_parse s) as [[]|]; try discriminate.
    now injection Hr as ->.
  - now injection Hr as ->.
Qed.

(** X7. Whatever the candidate, a [ValidationError] thrown by an entry point
    carries at least one violation. *)
Theorem X7_error_names_a_violation (mw : Schema) (config : JsValue) (e : JoiError) :
  call mw (validateLocalAuthConfig config) = Throws (ValidationError e)
  \/ call mw (validateBasicAuthConfig config) = Throws (ValidationError e)
  \/ call mw (validateJwtAuthConfig config) = Throws (ValidationError e) ->
  details e <> [].
Proof.
  rewrite call_validateLocalAuthConfig, call_validateBasicAuthConfig,
    call_validateJwtAuthConfig.
  unfold Joi.validate. cbn [error value].
  intros [H|[H|H]];
    match type of H with
    | context [Errors_process ?es] =>
        destruct (Errors_process es) as [e'|] eqn:E; [|discriminate];
        injection H as ->; exact (Errors_process_details _ _ E)
    end.
Qed.

Lemma X7_error_names_a_violation_witness :
  details (mkJoiError [mkDetail any_required [Key "verify"]]) <> [].
Proof.
  apply (X7_error_names_a_violation middlewareConfigModel (JObj [])).
  left. reflexivity.
Defined.

(** X4. A candidate that is not there is returned as it is, without an
    error: the rule sets do not require their object.  Any other candidate
    that is neither an object nor a string spelling one in JSON ([null], a
    boolean, a number, an array, any other string) makes the entry point
    throw the single violation "must be an object" at the root. *)
Theorem X4_candidate_not_an_object (mw : Schema) (config : JsValue) :
  (config = JUndefined ->
   call mw (validateLocalAuthConfig config) = Returns JUndefined
   /\ call mw (validateBasicAuthConfig config) = Returns JUndefined
   /\ call mw (validateJwtAuthConfig config) = Returns JUndefined)
  /\ (config <> JUndefined -> reads_as_object config = None ->
      let not_an_object := Throws (ValidationError (mkJoiError [mkDetail object_base []])) in
      call mw (validateLocalAuthConfig config) = not_an_object
      /\ call mw (validateBasicAuthConfig config) = not_an_object
      /\ call mw (validateJwtAuthConfig config) = not_an_object).
Proof.
  split.
  - intros ->. repeat split; reflexivity.
  - intros Hv Hr. simpl.
    rewrite call_validateLocalAuthConfig, call_validateBasicAuthConfig,
      call_validateJwtAuthConfig.
    rewrite localAuthenticationSchema_eq, basicAuthenticationSchema_eq,
      jwtAuthenticationSchema_eq.
    unfold Joi.validate. cbn [error value].
    rewrite !(validate_object_not_object _ _ _ _ _ Hv Hr).
    repeat split; reflexivity.
Qed.

Lemma X4_candidate_not_an_object_witness :
  let not_an_object := Throws (ValidationError (mkJoiError [mkDetail object_base []])) in
  (call middlewareConfigModel (validateJwtAuthConfig JUndefined) = Returns JUndefined)
  /\ call middlewareConfigModel (validateLocalAuthConfig (JArr [JStr "verify"]))
     = not_an_object
  /\ call middlewareConfigModel (validateJwtAuthConfig (JStr "secretOrKey=abc"))
     = not_an_object.
Proof.
  split.
  - apply (proj1 (X4_candidate_not_an_object middlewareConfigModel JUndefined) eq_refl).
  - split.
    + apply (proj2 (X4_candidate_not_an_object middlewareConfigModel
                      (JArr [JStr "verify"]))); [discriminate | reflexivity].
    + apply (proj2 (X4_candidate_not_an_object middlewareConfigModel
                      (JStr "secretOrKey=abc"))); [discriminate | reflexivity].
Defined.



(** An object rule without dependencies accepts exactly the objects whose
    fields satisfy their rules and whose keys are all declared. *)
Lemma object_accepts_iff (p : Presence) (ch : list (string * Schema)) (path : Path)
    (props : Obj) :
  NoDup (map fst ch) ->
  accepts (JoiObject p (Some ch) []) path (JObj props)
  <-> fields_ok path ch props /\ only_keys (map fst ch) props.
Proof.
  intros Hnd. split.
  - now apply object_accepted_inv.
  - intros [Hf Hk].
    destruct (object_fields_accepted p ch [] path props Hnd Hf Hk) as [t [_ [_ Hres]]].
    unfold accepts. now rewrite Hres.
Qed.

Lemma returns_iff_accepted (o : Outcome JsValue) (r : ValidationResult) :
  o = match error r with
      | Some e => Throws (ValidationError e)
      | None => Returns (value r)
      end ->
  (exists v, o = Returns v) <-> error r = None.
Proof.
  intros ->. destruct (error r); split; try discriminate; eauto.
  intros [v H]. discriminate.
Qed.

(** X8. The acceptance criterion of the three entry points: for an object
    candidate the call returns exactly when every declared field, present or
    not, satisfies its rule and the candidate has no undeclared key. *)
Theorem X8_acceptance_criterion (mw : Schema) (candidate : Obj) :
  let criterion schema :=
    fields_ok [] (children_of schema) candidate
    /\ only_keys (declared_keys schema) candidate in
  ((exists v, call mw (validateLocalAuthConfig (JObj candidate)) = Returns v)
   <-> criterion (localAuthenticationSchema (load mw)))
  /\ ((exists v, call mw (validateBasicAuthConfig (JObj candidate)) = Returns v)
      <-> criterion (basicAuthenticationSchema (load mw)))
  /\ ((exists v, call mw (validateJwtAuthConfig (JObj candidate)) = Returns v)
      <-> criterion (jwtAuthenticationSchema (load mw))).
Proof.
  intros criterion. subst criterion. cbv beta.
  rewrite (returns_iff_accepted _ _ (call_validateLocalAuthConfig mw _)).
  rewrite (returns_iff_accepted _ _ (call_validateBasicAuthConfig mw _)).
  rewrite (returns_iff_accepted _ _ (call_validateJwtAuthConfig mw _)).
  rewrite !validate_error_None.
  rewrite localAuthenticationSchema_eq, basicAuthenticationSchema_eq,
    jwtAuthenticationSchema_eq.
  unfold declared_keys. cbn [children_of].
  split; [|split]; apply object_accepts_iff; distinct_keys.
Qed.

(** X1. The base rule set [authenticationValidatorSchema] requires
    [strategy]: an object candidate without it is refused with exactly the
    required-field violation at [strategy], whatever else it holds. *)
Theorem X1_strategy_required (mw : Schema) (candidate : Obj) :
  obj_get "strategy" candidate = JUndefined ->
  error (Joi.validate (JObj candidate) (authenticationValidatorSchema (load mw)))
  = Some (mkJoiError [mkDetail any_required [Key "strategy"]]).
Proof.
  intros Hk. rewrite authenticationValidatorSchema_eq.
  apply (required_field_error Optional [] [] "strategy" mw [] candidate); auto.
  - distinct_keys.
  - constructor.
Qed.

Lemma X1_strategy_required_witness :
  error (Joi.validate (JObj [("use", JStr "jwt"); ("group", JStr "admins")])
           (authenticationValidatorSchema (load middlewareConfigModel)))
  = Some (mkJoiError [mkDetail any_required [Key "strategy"]]).
Proof.
  apply (X1_strategy_required middlewareConfigModel
           [("use", JStr "jwt"); ("group", JStr "admins")]).
  reflexivity.
Defined.

(** X3. The two ways to break the exclusivity of [strategy] and [use] are
    told apart: for a candidate whose fields satisfy their rules and whose
    keys are declared, [Joi.validate] reports the single violation
    [object.missing] when neither is present, the single violation
    [object.xor] when both are, and no error when exactly one is. *)
Theorem X3_missing_or_conflict (mw : Schema) (candidate : Obj) :
  let schema := apiAuthenticationValidatorSchema (load mw) in
  fields_ok [] (children_of schema) candidate ->
  only_keys (declared_keys schema) candidate ->
  error (Joi.validate (JObj candidate) schema)
  = match present "strategy" candidate, present "use" candidate with
    | false, false => Some (mkJoiError [mkDetail object_missing []])
    | true, true => Some (mkJoiError [mkDetail object_xor []])
    | _, _ => None
    end.
Proof.
  intros schema Hfields Hkeys. subst schema.
  assert (Hnd : NoDup (map fst (children_of (apiAuthenticationValidatorSchema (load mw)))))
    by distinct_keys.
  rewrite apiAuthenticationValidatorSchema_eq in *.
  unfold declared_keys in Hkeys. cbn [children_of] in *.
  destruct (object_fields_accepted Optional _ [Xor ["strategy"; "use"]] [] candidate
              Hnd Hfields Hkeys) as [target [_ [Hin Hres]]].
  unfold Joi.validate. rewrite Hres. clear Hres.
  assert (Hp : forall k, In k ["strategy"; "use"] ->
               present k target = present k candidate).
  { unfold fields_ok in Hfields. rewrite Forall_forall in Hfields.
    intros k [<-|[<-|[]]].
    - apply (accepted_field_present mw ([] ++ [Key "strategy"])).
      + apply (Hfields ("strategy", mw)). simpl. tauto.
      + apply Hin. simpl. tauto.
    - apply (accepted_field_present Joi.string ([] ++ [Key "use"])).
      + apply (Hfields ("use", Joi.string)). simpl. tauto.
      + apply Hin. simpl. tauto. }
  cbn [Object_dependencies check_dependency].
  rewrite (Object_xor_ext _ target candidate [] Hp).
  unfold Object_xor, present. cbn [filter]. rewrite !hasOwnProperty_defined.
  destruct (negb (is_undefined (obj_get "strategy" candidate))),
           (negb (is_undefined (obj_get "use" candidate))); reflexivity.
Qed.

Lemma X3_missing_or_conflict_witness :
  let schema := apiAuthenticationValidatorSchema (load middlewareConfigModel) in
  error (Joi.validate (JObj [("group", JArr [JStr "admins"])]) schema)
  = Some (mkJoiError [mkDetail object_missing []])
  /\ error (Joi.validate (JObj [("strategy", JObj [("name", JStr "jwt")]);
                               ("use", JStr "shared")]) schema)
     = Some (mkJoiError [mkDetail object_xor []]).
Proof.
  intros schema. split.
  - apply (X3_missing_or_conflict middlewareConfigModel
             [("group", JArr [JStr "admins"])]);
      [repeat constructor | reflexivity].
  - apply (X3_missing_or_conflict middlewareConfigModel
             [("strategy", JObj [("name", JStr "jwt")]); ("use", JStr "shared")]);
      [repeat constructor | reflexivity].
Defined.

(** A child whose field is absent, and that accepts an absent field, leaves
    the loop over the children as it is without it. *)
Lemma Object_children_absent (path : Path) (ch1 : list (string * Validator)) :
  forall t sp k c ch2,
    obj_get k t = JUndefined ->
    ~ In k (map fst ch1) ->
    c (path ++ [Key k]) JUndefined = finish JUndefined ->
    Object_children (ch1 ++ (k, c) :: ch2) path t sp
    = Object_children (ch1 ++ ch2) path t sp.
Proof.
  induction ch1 as [|[k0 c0] ch1 IH]; intros t sp k c ch2 Hk Hnot Hc.
  - simpl. rewrite Hk, Hc. reflexivity.
  - assert (Hne : k0 <> k) by (intros ->; apply Hnot; simpl; auto).
    assert (Hnot' : ~ In k (map fst ch1)) by (intros H; apply Hnot; simpl; auto).
    simpl.
    destruct (res_errors (c0 (path ++ [Key k0]) (obj_get k0 t))); [|reflexivity].
    destruct (is_undefined (res_value (c0 (path ++ [Key k0]) (obj_get k0 t)))).
    + destruct (is_undefined (obj_get k0 t)).
      * now apply IH.
      * apply IH; auto. now rewrite obj_get_set_other.
    + apply IH; auto. now rewrite obj_get_set_other.
Qed.

(** A key the object does not have reads [undefined]. *)
Lemma obj_get_not_key (k : string) (o : Obj) :
  ~ In k (obj_keys o) -> obj_get k o = JUndefined.
Proof.
  induction o as [|[k0 v] o IH]; simpl; auto.
  intros Hnot. destruct (String.eqb k0 k) eqn:E.
  - apply String.eqb_eq in E. subst. exfalso. auto.
  - apply IH. auto.
Qed.

Lemma only_keys_get (declared : list string) (o : Obj) (k : string) :
  only_keys declared o -> ~ In k declared -> obj_get k o = JUndefined.
Proof.
  intros Honly Hnot. apply obj_get_not_key. intros Hin.
  assert (Hu : In k (unprocessed declared o)) by now apply unprocessed_In.
  unfold only_keys in Honly. now rewrite Honly in Hu.
Qed.

(** Declaring more keys leaves an object without undeclared keys so. *)
Lemma only_keys_more (declared declared' : list string) (o : Obj) :
  incl declared declared' -> only_keys declared o -> only_keys declared' o.
Proof.
  intros Hincl Honly. unfold only_keys in *.
  destruct (unprocessed declared' o) as [|k ks] eqn:E; auto.
  assert (Hk : In k (unprocessed declared' o)) by (rewrite E; now left).
  apply unprocessed_In in Hk. destruct Hk as [Hin Hnot].
  assert (Hu : In k (unprocessed declared o)).
  { apply unprocessed_In. split; auto. }
  now rewrite Honly in Hu.
Qed.

(** A required rule accepts only what is there, and then judges it as the
    rule itself does. *)
Lemma accepts_required_inv (schema : Schema) (path : Path) (v : JsValue) :
  accepts (schema |> required) path v ->
  v <> JUndefined /\ validate (schema |> required) path v = validate schema path v.
Proof.
  intros Hacc.
  assert (Hv : v <> JUndefined).
  { intros ->. now apply (required_refuses_undefined schema path). }
  split; auto. now apply validate_required_defined.
Qed.

Lemma unprocessed_ext (d1 d2 : list string) (o : Obj) :
  (forall k, In k (obj_keys o) -> (In k d1 <-> In k d2)) ->
  unprocessed d1 o = unprocessed d2 o.
Proof.
  intros Hext. unfold unprocessed. apply filter_ext_in. intros k Hk. f_equal.
  destruct (existsb (String.eqb k) d1) eqn:E1, (existsb (String.eqb k) d2) eqn:E2; auto.
  - apply existsb_eqb_In, (Hext k Hk), existsb_eqb_In in E1. congruence.
  - apply existsb_eqb_In, (Hext k Hk), existsb_eqb_In in E2. congruence.
Qed.

Lemma only_keys_In (declared : list string) (o : Obj) (k : string) :
  only_keys declared o -> In k (obj_keys o) -> In k declared.
Proof.
  intros Honly Hin. destruct (in_dec string_dec k declared) as [|Hnot]; auto.
  assert (Hu : In k (unprocessed declared o)) by now apply unprocessed_In.
  unfold only_keys in Honly. now rewrite Honly in Hu.
Qed.

(** An object rule judges an object that lacks the key of an optional
    child as the rule without that child does. *)
Lemma validate_object_absent_child (p : Presence) (ch1 : list (string * Schema))
    (k : string) (c : Schema) (ch2 : list (string * Schema))
    (deps : list Dependency) (path : Path) (props : Obj) :
  ~ In k (obj_keys props) ->
  ~ In k (map fst ch1) ->
  validate c (path ++ [Key k]) JUndefined = finish JUndefined ->
  validate (JoiObject p (Some (ch1 ++ (k, c) :: ch2)) deps) path (JObj props)
  = validate (JoiObject p (Some (ch1 ++ ch2)) deps) path (JObj props).
Proof.
  intros Hkey Hnot Hc. rewrite !validate_object_unfold.
  rewrite !compile_children_app.
  change (compile_children ((k, c) :: ch2))
    with ((k, validate c) :: compile_children ch2).
  rewrite Object_children_absent; auto.
  - rewrite (unprocessed_ext (map fst (ch1 ++ (k, c) :: ch2)) (map fst (ch1 ++ ch2)));
      [reflexivity|].
    intros x Hx. rewrite !map_app, !in_app_iff. simpl. split; [|tauto].
    intros [H|[<-|H]]; auto. contradiction.
  - now apply obj_get_not_key.
  - now rewrite compile_children_keys.
Qed.

(** X6. Whatever [validateBasicAuthConfig] accepts, [validateLocalAuthConfig]
    accepts as well, and returns the same value: a Basic configuration is a
    Local one that sets neither [usernameField] nor [passwordField]. *)
Theorem X6_basic_is_local (mw : Schema) (candidate : Obj) (result : JsValue) :
  call mw (validateBasicAuthConfig (JObj candidate)) = Returns result ->
  call mw (validateLocalAuthConfig (JObj candidate)) = Returns result.
Proof.
  rewrite call_validateBasicAuthConfig, call_validateLocalAuthConfig.
  intros Hbasic.
  assert (Hacc : accepts (basicAuthenticationSchema (load mw)) [] (JObj candidate)).
  { apply validate_error_None.
    destruct (error (Joi.validate (JObj candidate) (basicAuthenticationSchema (load mw))));
      [discriminate|reflexivity]. }
  assert (Hsame : validate (localAuthenticationSchema (load mw)) [] (JObj candidate)
                  = validate (basicAuthenticationSchema (load mw)) [] (JObj candidate)).
  { assert (Hkeys : only_keys (declared_keys (basicAuthenticationSchema (load mw)))
                              candidate).
    { apply (object_accepted_inv Optional _ [] [] candidate); [distinct_keys|].
      exact Hacc. }
    assert (Hlacks : forall k, k <> "verify" -> ~ In k (obj_keys candidate)).
    { intros k Hk Hin. apply (only_keys_In _ _ _ Hkeys) in Hin.
      simpl in Hin. intuition. }
    transitivity
      (validate (JoiObject Optional
                   (Some ([] ++ [("usernameField", Joi.string);
                                 ("verify", mw |> required)])) [])
                [] (JObj candidate)).
    - apply (validate_object_absent_child Optional [] "passwordField" Joi.string);
        [apply Hlacks; discriminate | simpl; tauto | reflexivity].
    - apply (validate_object_absent_child Optional [] "usernameField" Joi.string);
        [apply Hlacks; discriminate | simpl; tauto | reflexivity]. }
  unfold Joi.validate in *. rewrite Hsame. exact Hbasic.
Qed.

Lemma X6_basic_is_local_witness :
  let candidate := [("verify", JObj [("name", JStr "verifyUser")])] in
  call middlewareConfigModel (validateLocalAuthConfig (JObj candidate))
  = Returns (JObj candidate).
Proof.
  intros candidate.
  apply (X6_basic_is_local middlewareConfigModel candidate). reflexivity.
Defined.

(** X2. [apiAuthenticationValidatorSchema] extends the base rule set:
    whatever [authenticationValidatorSchema] accepts, it accepts as well,
    with the same normalized value.  Such a candidate holds [strategy] and
    nothing else, so the exclusivity is satisfied. *)
Theorem X2_api_extends_base (mw : Schema) (candidate : Obj) :
  error (Joi.validate (JObj candidate) (authenticationValidatorSchema (load mw))) = None ->
  Joi.validate (JObj candidate) (apiAuthenticationValidatorSchema (load mw))
  = Joi.validate (JObj candidate) (authenticationValidatorSchema (load mw)).
Proof.
  intros Hbase. apply validate_error_None in Hbase.
  assert (Hinv : fields_ok [] (children_of (authenticationValidatorSchema (load mw)))
                           candidate
                 /\ only_keys (declared_keys (authenticationValidatorSchema (load mw)))
                              candidate).
  { apply (object_accepted_inv Optional _ [] [] candidate); [distinct_keys|].
    exact Hbase. }
  destruct Hinv as [Hfields Hkeys].
  assert (Hlacks : forall k, k <> "strategy" -> ~ In k (obj_keys candidate)).
  { intros k Hk Hin. apply (only_keys_In _ _ _ Hkeys) in Hin.
    simpl in Hin. intuition. }
  assert (Hstrategy : accepts (mw |> required) [Key "strategy"]
                              (obj_get "strategy" candidate)).
  { inversion Hfields; subst. assumption. }
  destruct (accepts_required_inv _ _ _ Hstrategy) as [Hdefined Hrequired].
  assert (Hsame : validate (apiAuthenticationValidatorSchema (load mw)) [] (JObj candidate)
                  = validate (authenticationValidatorSchema (load mw)) [] (JObj candidate)).
  { transitivity
      (validate (JoiObject Optional
                   (Some ([] ++ [("strategy", mw); ("use", Joi.string)]))
                   [Xor ["strategy"; "use"]])
                [] (JObj candidate)).
    { apply (validate_object_absent_child Optional [] "group" groupRule);
        [apply Hlacks; discriminate | simpl; tauto | reflexivity]. }
    transitivity
      (validate (JoiObject Optional (Some ([("strategy", mw)] ++ []))
                   [Xor ["strategy"; "use"]])
                [] (JObj candidate)).
    { apply (validate_object_absent_child Optional [("strategy", mw)] "use" Joi.string);
        [apply Hlacks; discriminate | simpl; intuition discriminate | reflexivity]. }
    rewrite authenticationValidatorSchema_eq. rewrite !validate_object_unfold.
    cbn [app compile_children map Object_children].
    cbn [app] in Hrequired. rewrite Hrequired.
    unfold accepts in Hstrategy. rewrite Hrequired in Hstrategy. rewrite Hstrategy.
    pose proof (validate_keeps_presence mw [Key "strategy"]
                  (obj_get "strategy" candidate) Hstrategy) as Hpresent.
    destruct (obj_get "strategy" candidate) eqn:Eget; try contradiction;
      cbn [is_undefined] in Hpresent; rewrite Hpresent;
      cbn [delete_props fold_left Object_dependencies check_dependency];
      match goal with
      | |- context [Object_xor ?peers ?t ?p] =>
          assert (Hxor : Object_xor peers t p = None)
      end;
      try (apply Object_xor_two; unfold present;
           rewrite obj_get_set_same, Hpresent;
           rewrite obj_get_set_other by discriminate;
           rewrite (obj_get_not_key "use") by (apply Hlacks; discriminate);
           reflexivity);
      rewrite Hxor; reflexivity. }
  unfold Joi.validate. now rewrite Hsame.
Qed.

Lemma X2_api_extends_base_witness :
  let candidate := [("strategy", JObj [("name", JStr "jwt")])] in
  Joi.validate (JObj candidate) (apiAuthenticationValidatorSchema (load middlewareConfigModel))
  = mkValidationResult None (JObj candidate).
Proof.
  intros candidate.
  rewrite (X2_api_extends_base middlewareConfigModel candidate); reflexivity.
Defined.

(** What a returned value holds: an object with each declared field at its
    rule's value, every such field having satisfied its rule. *)
Lemma returned_object (p : Presence) (ch : list (string * Schema)) (candidate : Obj)
    (o : Outcome JsValue) (r : JsValue) :
  NoDup (map fst ch) ->
  o = match error (Joi.validate (JObj candidate) (JoiObject p (Some ch) [])) with
      | Some e => Throws (ValidationError e)
      | None => Returns (value (Joi.validate (JObj candidate) (JoiObject p (Some ch) [])))
      end ->
  o = Returns r ->
  exists result,
    r = JObj result
    /\ (forall k, ~ In k (map fst ch) -> obj_get k result = JUndefined)
    /\ (forall k c, In (k, c) ch ->
          accepts c [Key k] (obj_get k candidate)
          /\ obj_get k result = res_value (validate c [Key k] (obj_get k candidate))).
Proof.
  intros Hnd -> Hr.
  destruct (error (Joi.validate (JObj candidate) (JoiObject p (Some ch) []))) eqn:E;
    [discriminate|].
  injection Hr as <-. apply validate_error_None in E.
  destruct (object_accepted_inv _ _ _ _ _ Hnd E) as [_ Hkeys].
  destruct (object_accepted_value _ _ _ _ _ Hnd E) as [target [Hv [_ [Hout Hin]]]].
  exists target. split; [exact Hv|]. split; [|exact Hin].
  intros k Hk. rewrite (Hout k Hk). now apply (only_keys_get _ _ _ Hkeys).
Qed.

Lemma local_returned (mw : Schema) (candidate : Obj) (r : JsValue) :
  call mw (validateLocalAuthConfig (JObj candidate)) = Returns r ->
  exists result,
    r = JObj result
    /\ (forall k, ~ In k (declared_keys (localAuthenticationSchema (load mw))) ->
          obj_get k result = JUndefined /\ obj_get k candidate = JUndefined)
    /\ (forall k c, In (k, c) (children_of (localAuthenticationSchema (load mw))) ->
          accepts c [Key k] (obj_get k candidate)
          /\ obj_get k result = res_value (validate c [Key k] (obj_get k candidate))).
Proof.
  intros Hcall.
  assert (Hnd : NoDup (map fst (children_of (localAuthenticationSchema (load mw)))))
    by distinct_keys.
  pose proof (call_validateLocalAuthConfig mw (JObj candidate)) as Hc.
  assert (Hkeys : only_keys (declared_keys (localAuthenticationSchema (load mw))) candidate).
  { rewrite Hc in Hcall.
    destruct (error (Joi.validate (JObj candidate) (localAuthenticationSchema (load mw))))
      eqn:E; [discriminate|].
    apply validate_error_None in E.
    apply (object_accepted_inv Optional _ [] [] candidate Hnd E). }
  destruct (returned_object Optional _ candidate _ r Hnd Hc Hcall)
    as [result [Hr [Hout Hin]]].
  exists result. split; [exact Hr|]. split; [|exact Hin].
  intros k Hk. split; [now apply Hout | now apply (only_keys_get _ _ _ Hkeys)].
Qed.

Lemma jwt_returned (mw : Schema) (candidate : Obj) (r : JsValue) :
  call mw (validateJwtAuthConfig (JObj candidate)) = Returns r ->
  exists result,
    r = JObj result
    /\ (forall k, ~ In k (declared_keys (jwtAuthenticationSchema (load mw))) ->
          obj_get k result = JUndefined /\ obj_get k candidate = JUndefined)
    /\ (forall k c, In (k, c) (children_of (jwtAuthenticationSchema (load mw))) ->
          accepts c [Key k] (obj_get k candidate)
          /\ obj_get k result = res_value (validate c [Key k] (obj_get k candidate))).
Proof.
  intros Hcall.
  assert (Hnd : NoDup (map fst (children_of (jwtAuthenticationSchema (load mw)))))
    by distinct_keys.
  pose proof (call_validateJwtAuthConfig mw (JObj candidate)) as Hc.
  assert (Hkeys : only_keys (declared_keys (jwtAuthenticationSchema (load mw))) candidate).
  { rewrite Hc in Hcall.
    destruct (error (Joi.validate (JObj candidate) (jwtAuthenticationSchema (load mw))))
      eqn:E; [discriminate|].
    apply validate_error_None in E.
    apply (object_accepted_inv Optional _ [] [] candidate Hnd E). }
  destruct (returned_object Optional _ candidate _ r Hnd Hc Hcall)
    as [result [Hr [Hout Hin]]].
  exists result. split; [exact Hr|]. split; [|exact Hin].
  intros k Hk. split; [now apply Hout | now apply (only_keys_get _ _ _ Hkeys)].
Qed.

(** X9. The returned value differs from the candidate only where a rule
    converts: [validateLocalAuthConfig] returns every field but [verify] as
    it was given, [validateJwtAuthConfig] every field but [algorithms],
    [extractFrom], [ignoreExpiration] and [verify].  No string is trimmed,
    cased or replaced. *)
Theorem X9_strings_returned_as_given (mw : Schema) (candidate : Obj) (r : JsValue) :
  (call mw (validateLocalAuthConfig (JObj candidate)) = Returns r ->
   exists result,
     r = JObj result
     /\ forall k, k <> "verify" -> obj_get k result = obj_get k candidate)
  /\ (call mw (validateJwtAuthConfig (JObj candidate)) = Returns r ->
      exists result,
        r = JObj result
        /\ forall k, ~ In k ["algorithms"; "extractFrom"; "ignoreExpiration"; "verify"] ->
                     obj_get k result = obj_get k candidate).
Proof.
  split; intros Hcall.
  - destruct (local_returned mw candidate r Hcall) as [result [Hr [Hout Hin]]].
    exists result. split; [exact Hr|]. intros k Hk.
    destruct (in_dec string_dec k ["passwordField"; "usernameField"]) as [Hd|Hd].
    + destruct (Hin k Joi.string) as [_ ->]; [simpl in *; intuition (subst; auto)|].
      apply string_value.
    + destruct (Hout k) as [-> ->]; [simpl in *; intuition|]. reflexivity.
  - destruct (jwt_returned mw candidate r Hcall) as [result [Hr [Hout Hin]]].
    exists result. split; [exact Hr|]. intros k Hk.
    destruct (in_dec string_dec k ["audience"; "issuer"; "secretOrKey"]) as [Hd|Hd].
    + destruct Hd as [<-|[<-|[<-|[]]]].
      * destruct (Hin "audience" Joi.string) as [_ ->]; [simpl; tauto|].
        apply string_value.
      * destruct (Hin "issuer" Joi.string) as [_ ->]; [simpl; tauto|].
        apply string_value.
      * destruct (Hin "secretOrKey" (Joi.string |> required)) as [_ ->]; [simpl; tauto|].
        apply string_value.
    + destruct (Hout k) as [-> ->]; [simpl in *; intuition|]. reflexivity.
Qed.

Lemma X9_strings_returned_as_given_witness :
  let local := [("usernameField", JStr "email"); ("verify", JObj [("name", JStr "verifyUser")])] in
  let jwt := [("secretOrKey", JStr " s3cr3t "); ("issuer", JStr "Accounts.Example.COM");
              ("ignoreExpiration", JStr "true")] in
  (exists result,
      JObj local = JObj result
      /\ forall k, k <> "verify" -> obj_get k result = obj_get k local)
  /\ (exists result,
         JObj [("secretOrKey", JStr " s3cr3t "); ("issuer", JStr "Accounts.Example.COM");
               ("ignoreExpiration", JBool true)] = JObj result
         /\ forall k, ~ In k ["algorithms"; "extractFrom"; "ignoreExpiration"; "verify"] ->
                      obj_get k result = obj_get k jwt).
Proof.
  intros local jwt. split.
  - apply (proj1 (X9_strings_returned_as_given middlewareConfigModel local (JObj local))).
    reflexivity.
  - apply (proj2 (X9_strings_returned_as_given middlewareConfigModel jwt _)).
    reflexivity.
Defined.

(** *** The shape of the values the rules hand back *)

Lemma boolean_value (path : Path) (v : JsValue) :
  accepts Joi.boolean path v ->
  optional (fun w => exists b, w = JBool b) (res_value (validate Joi.boolean path v)).
Proof.
  unfold accepts, optional.
  destruct v as [| |b| |s| |]; try (simpl; discriminate); simpl; eauto.
  unfold Boolean_base.
  destruct (String.eqb (toLowerCase s) "true"); [simpl; eauto|].
  destruct (String.eqb (toLowerCase s) "false"); [simpl; eauto|discriminate].
Qed.

Lemma string_field_value (p : Presence) (path : Path) (v : JsValue) :
  accepts (JoiString p) path v ->
  optional nonempty_string (res_value (validate (JoiString p) path v)).
Proof.
  rewrite string_value. unfold accepts, optional, nonempty_string.
  destruct v as [| | | |s| |]; try destruct p; try (simpl; discriminate); auto.
  all: destruct s; [simpl; discriminate|]; intros _; right; eexists; split; eauto;
    discriminate.
Qed.

(** The array rule over strings, met by anything: what it hands back is an
    array of strings that are not empty, also when it read the array from
    JSON text. *)
Lemma string_array_value (path : Path) (v : JsValue) :
  accepts (Joi.array |> items [Joi.string]) path v ->
  optional (fun w => exists l, w = JArr l /\ Forall nonempty_string l)
           (res_value (validate (Joi.array |> items [Joi.string]) path v)).
Proof.
  intros Hacc. unfold optional.
  destruct v as [| | | |s|elements|]; try (simpl in Hacc; discriminate Hacc); auto.
  - right. revert Hacc. unfold accepts.
    change (validate (Joi.array |> items [Joi.string]) path (JStr s))
      with (Array_base [validate Joi.string] path (JStr s)).
    unfold Array_base, Array_safeParse.
    destruct (JSON_parse s) as [[| | | | |parsed|]|]; try (simpl; discriminate).
    pose proof (Array_checkItems_accepts Optional false path parsed 0) as Hiff.
    pose proof (Array_checkItems_strings Optional false path parsed 0) as Hsame.
    change (validate (JoiString Optional)) with (validate Joi.string) in *.
    destruct (Array_checkItems [validate Joi.string] false path 0 parsed)
      as [items' es] eqn:E.
    cbn [res_errors res_value snd] in *. intros ->.
    rewrite (Hsame items' eq_refl). exists parsed. split; [reflexivity|].
    now apply Hiff.
  - right. exists elements. split.
    + now apply array_of_strings_value.
    + exact (proj1 (accepts_string_array path elements) Hacc).
Qed.

(** The extractor rule, met by anything: what it hands back is an object
    whose every location is absent or a string that is not empty. *)
Lemma extractor_value (mw : Schema) (path : Path) (v : JsValue) :
  accepts (jwtRequestExtractorSchema (load mw)) path v ->
  optional (fun w => exists extractor,
                w = JObj extractor
                /\ forall k, optional nonempty_string (obj_get k extractor))
           (res_value (validate (jwtRequestExtractorSchema (load mw)) path v)).
Proof.
  intros Hacc. unfold optional at 1.
  assert (Hnd : NoDup (map fst (children_of (jwtRequestExtractorSchema (load mw)))))
    by distinct_keys.
  assert (Hobj : forall props,
             accepts (jwtRequestExtractorSchema (load mw)) path (JObj props) ->
             exists extractor,
               res_value (validate (jwtRequestExtractorSchema (load mw)) path (JObj props))
               = JObj extractor
               /\ forall k, optional nonempty_string (obj_get k extractor)).
  { intros props Hp. rewrite jwtRequestExtractorSchema_eq in *. cbn [children_of] in Hnd.
    destruct (object_accepted_inv _ _ _ _ _ Hnd Hp) as [_ Hkeys].
    destruct (object_accepted_value _ _ _ _ _ Hnd Hp)
      as [target [Hv [_ [Hout Hin]]]].
    exists target. split; [exact Hv|]. intros k.
    destruct (in_dec string_dec k
                ["authHeader"; "bodyField"; "cookie"; "header"; "queryParam"]) as [Hd|Hd].
    - destruct (Hin k Joi.string) as [Ha ->]; [simpl in *; intuition (subst; auto)|].
      now apply string_field_value.
    - left. rewrite (Hout k Hd). now apply (only_keys_get _ _ _ Hkeys). }
  destruct (reads_as_object v) as [props|] eqn:Er.
  - right.
    assert (E : validate (jwtRequestExtractorSchema (load mw)) path v
                = validate (jwtRequestExtractorSchema (load mw)) path (JObj props)).
    { rewrite jwtRequestExtractorSchema_eq. now apply validate_object_reads. }
    unfold accepts in Hacc. rewrite E in *. destruct (Hobj props Hacc) as [ex [Hv Hk]].
    eauto.
  - destruct v as [| | | |s| |]; auto; try (simpl in Er; discriminate Er);
      exfalso; unfold accepts in Hacc;
      rewrite jwtRequestExtractorSchema_eq in Hacc;
      rewrite validate_object_not_object in Hacc; auto; discriminate.
Qed.

(** X10. Whatever [validateJwtAuthConfig] returns for an object candidate is
    a [JWTAuthentication] as the interface types it: [secretOrKey] is a
    string that is not empty; [issuer] and [audience] are absent or such
    strings; [ignoreExpiration] is absent or a boolean; [algorithms] is
    absent or an array of such strings; [extractFrom] is absent or an object
    whose every location is absent or such a string; and there is no other
    key but [verify]. *)
Theorem X10_returned_value_is_typed (mw : Schema) (candidate : Obj) (r : JsValue) :
  call mw (validateJwtAuthConfig (JObj candidate)) = Returns r ->
  exists result,
    r = JObj result
    /\ nonempty_string (obj_get "secretOrKey" result)
    /\ optional nonempty_string (obj_get "issuer" result)
    /\ optional nonempty_string (obj_get "audience" result)
    /\ optional (fun w => exists b, w = JBool b) (obj_get "ignoreExpiration" result)
    /\ optional (fun w => exists l, w = JArr l /\ Forall nonempty_string l)
                (obj_get "algorithms" result)
    /\ optional (fun w => exists extractor,
                     w = JObj extractor
                     /\ forall k, optional nonempty_string (obj_get k extractor))
                (obj_get "extractFrom" result)
    /\ forall k, ~ In k (declared_keys (jwtAuthenticationSchema (load mw))) ->
                 obj_get k result = JUndefined.
Proof.
  intros Hcall.
  destruct (jwt_returned mw candidate r Hcall) as [result [Hr [Hout Hin]]].
  exists result. split; [exact Hr|].
  assert (Hfield : forall k c, In (k, c) (children_of (jwtAuthenticationSchema (load mw))) ->
                   forall P, (accepts c [Key k] (obj_get k candidate) ->
                              P (res_value (validate c [Key k] (obj_get k candidate)))) ->
                   P (obj_get k result)).
  { intros k c Hkc P HP. destruct (Hin k c Hkc) as [Ha ->]. now apply HP. }
  repeat split.
  - apply (Hfield "secretOrKey" (Joi.string |> required)); [simpl; tauto|].
    intros Ha. pose proof (proj1 (accepts_required_string _ _) Ha) as Hs.
    change (required Joi.string) with (JoiString Required).
    now rewrite string_value.
  - apply (Hfield "issuer" Joi.string); [simpl; tauto|]. apply string_field_value.
  - apply (Hfield "audience" Joi.string); [simpl; tauto|]. apply string_field_value.
  - apply (Hfield "ignoreExpiration" Joi.boolean); [simpl; tauto|]. apply boolean_value.
  - apply (Hfield "algorithms" (Joi.array |> items [Joi.string])); [simpl; tauto|].
    apply string_array_value.
  - apply (Hfield "extractFrom" (jwtRequestExtractorSchema (load mw))); [simpl; tauto|].
    apply extractor_value.
  - intros k Hk. now apply Hout.
Qed.

Lemma X10_returned_value_is_typed_witness :
  let q := String dquote EmptyString in
  let candidate :=
    [("secretOrKey", JStr "s3cr3t");
     ("algorithms", JStr ("[" ++ q ++ "HS256" ++ q ++ "]")%string);
     ("ignoreExpiration", JStr "False");
     ("extractFrom", JObj [("cookie", JStr "jwt")])] in
  exists result,
    JObj [("secretOrKey", JStr "s3cr3t");
          ("algorithms", JArr [JStr "HS256"]);
          ("ignoreExpiration", JBool false);
          ("extractFrom", JObj [("cookie", JStr "jwt")])] = JObj result
    /\ nonempty_string (obj_get "secretOrKey" result)
    /\ optional nonempty_string (obj_get "issuer" result)
    /\ optional nonempty_string (obj_get "audience" result)
    /\ optional (fun w => exists b, w = JBool b) (obj_get "ignoreExpiration" result)
    /\ optional (fun w => exists l, w = JArr l /\ Forall nonempty_string l)
                (obj_get "algorithms" result)
    /\ optional (fun w => exists extractor,
                     w = JObj extractor
                     /\ forall k, optional nonempty_string (obj_get k extractor))
                (obj_get "extractFrom" result)
    /\ forall k, ~ In k (declared_keys (jwtAuthenticationSchema (load middlewareConfigModel))) ->
                 obj_get k result = JUndefined.
Proof.
  intros q candidate.
  apply (X10_returned_value_is_typed middlewareConfigModel candidate). reflexivity.
Defined.

(** *** Validating again *)

Lemma accepted_result (schema : Schema) (path : Path) (v : JsValue) :
  accepts schema path v ->
  validate schema path v = finish (res_value (validate schema path v)).
Proof.
  unfold accepts, finish. destruct (validate schema path v) as [rv re]. simpl.
  now intros ->.
Qed.

Lemma stable_string (p : Presence) : stable (JoiString p).
Proof.
  intros path v Hacc. rewrite string_value. rewrite (accepted_result _ _ _ Hacc) at 1.
  now rewrite string_value.
Qed.

Lemma stable_boolean : stable Joi.boolean.
Proof.
  intros path v Hacc. destruct (boolean_value path v Hacc) as [->|[b ->]]; reflexivity.
Qed.

Lemma stable_string_array : stable (Joi.array |> items [Joi.string]).
Proof.
  intros path v Hacc.
  destruct (string_array_value path v Hacc) as [->|[l [-> Hl]]]; [reflexivity|].
  assert (Hacc' : accepts (Joi.array |> items [Joi.string]) path (JArr l))
    by now apply accepts_string_array.
  rewrite (accepted_result _ _ _ Hacc') at 1.
  change (Joi.array |> items [Joi.string]) with (JoiArray Optional [JoiString Optional]) in *.
  now rewrite array_of_strings_value.
Qed.

Lemma stable_required (schema : Schema) : stable schema -> stable (schema |> required).
Proof.
  intros Hs path v Hacc.
  destruct (accepts_required_inv _ _ _ Hacc) as [Hv Hreq].
  unfold accepts in Hacc. rewrite Hreq in *.
  assert (Hw : res_value (validate schema path v) <> JUndefined).
  { intros E. pose proof (validate_keeps_presence schema path v Hacc) as Hp.
    rewrite E in Hp. simpl in Hp. destruct v; try discriminate. contradiction. }
  rewrite (validate_required_defined _ _ _ Hw). now apply Hs.
Qed.

Lemma obj_set_same (k : string) (o : Obj) :
  is_undefined (obj_get k o) = false -> obj_set k (obj_get k o) o = o.
Proof.
  induction o as [|[k0 v] o IH]; simpl; [discriminate|].
  destruct (String.eqb k0 k) eqn:E; [reflexivity|].
  intros H. now rewrite IH.
Qed.

(** The loop over the children leaves as it is an object whose fields are
    each handed back unchanged. *)
Lemma Object_children_fixed (path : Path) (ch : list (string * Validator)) (t : Obj)
    (sp : list string) :
  Forall (fun kc => snd kc (path ++ [Key (fst kc)]) (obj_get (fst kc) t)
                    = finish (obj_get (fst kc) t)) ch ->
  Object_children ch path t sp = (t, sp, None).
Proof.
  induction ch as [|[k c] ch IH]; intros Hall; [reflexivity|].
  inversion Hall as [|? ? Hk Hrest]; subst. simpl in Hk. simpl. rewrite Hk. simpl.
  destruct (is_undefined (obj_get k t)) eqn:E; [now apply IH|].
  rewrite (obj_set_same k t E). now apply IH.
Qed.

Lemma obj_keys_set (k : string) (v : JsValue) (o : Obj) :
  forall x, In x (obj_keys (obj_set k v o)) -> x = k \/ In x (obj_keys o).
Proof.
  induction o as [|[k0 w] o IH]; simpl; intros x.
  - intuition.
  - destruct (String.eqb k0 k); simpl; intros [<-|H]; auto.
    destruct (IH x H); auto.
Qed.

Lemma obj_keys_delete (k : string) (o : Obj) :
  forall x, In x (obj_keys (obj_delete k o)) -> In x (obj_keys o).
Proof.
  induction o as [|[k0 w] o IH]; simpl; intros x; auto.
  destruct (String.eqb k0 k); simpl; intuition.
Qed.

Lemma obj_keys_delete_props (keys : list string) (o : Obj) :
  forall x, In x (obj_keys (delete_props keys o)) -> In x (obj_keys o).
Proof.
  revert o. induction keys as [|k keys IH]; intros o x; simpl; auto.
  intros H. apply IH in H. now apply obj_keys_delete in H.
Qed.

(** The loop adds no key but those of the children. *)
Lemma Object_children_keys (path : Path) (ch : list (string * Validator)) :
  forall t sp t' sp' err,
    Object_children ch path t sp = (t', sp', err) ->
    forall x, In x (obj_keys t') -> In x (map fst ch) \/ In x (obj_keys t).
Proof.
  induction ch as [|[k c] ch IH]; intros t sp t' sp' err; simpl.
  - intros [= <- _ _]. auto.
  - destruct (res_errors (c (path ++ [Key k]) (obj_get k t))).
    + destruct (is_undefined (res_value (c (path ++ [Key k]) (obj_get k t)))).
      * destruct (is_undefined (obj_get k t)).
        -- intros H x Hx. destruct (IH _ _ _ _ _ H x Hx); auto.
        -- intros H x Hx. destruct (IH _ _ _ _ _ H x Hx) as [|Hs]; auto.
           apply obj_keys_set in Hs. destruct Hs; auto.
      * intros H x Hx. destruct (IH _ _ _ _ _ H x Hx) as [|Hs]; auto.
        apply obj_keys_set in Hs. destruct Hs; auto.
    + intros [= <- _ _]. auto.
Qed.

(** The value of an accepted object has no undeclared key either. *)
Lemma object_accepted_keys (p : Presence) (ch : list (string * Schema))
    (deps : list Dependency) (path : Path) (props target : Obj) :
  NoDup (map fst ch) ->
  accepts (JoiObject p (Some ch) deps) path (JObj props) ->
  res_value (validate (JoiObject p (Some ch) deps) path (JObj props)) = JObj target ->
  only_keys (map fst ch) target.
Proof.
  intros Hnd Hacc Hv.
  destruct (object_accepted_inv _ _ _ _ _ Hnd Hacc) as [_ Hkeys].
  apply only_keys_intro. apply Forall_forall. intros x Hx.
  revert Hv. rewrite validate_object_unfold.
  destruct (Object_children (compile_children ch) path props []) as [[t sp] err] eqn:Hrun.
  assert (Hsub : forall y, In y (obj_keys (delete_props sp t)) -> In y (map fst ch)).
  { intros y Hy. apply obj_keys_delete_props in Hy.
    destruct (Object_children_keys _ _ _ _ _ _ _ Hrun y Hy) as [H|H].
    - now rewrite compile_children_keys in H.
    - now apply (only_keys_In _ _ _ Hkeys). }
  destruct err as [e|].
  - unfold accepts in Hacc. rewrite validate_object_unfold, Hrun in Hacc. discriminate.
  - cbv zeta. destruct (Object_dependencies deps (delete_props sp t) path);
      simpl; intros [= <-]; now apply Hsub.
Qed.

(** An object rule without dependencies whose children are stable is
    stable. *)
Lemma stable_object (ch : list (string * Schema)) :
  NoDup (map fst ch) ->
  Forall (fun kc => stable (snd kc)) ch ->
  stable (JoiObject Optional (Some ch) []).
Proof.
  intros Hnd Hstable path v Hacc.
  assert (Hobj : forall props,
             accepts (JoiObject Optional (Some ch) []) path (JObj props) ->
             validate (JoiObject Optional (Some ch) []) path
               (res_value (validate (JoiObject Optional (Some ch) []) path (JObj props)))
             = finish (res_value (validate (JoiObject Optional (Some ch) []) path
                                    (JObj props)))).
  { intros props Hp.
    destruct (object_accepted_value _ _ _ _ _ Hnd Hp) as [target [Hv [_ [_ Hin]]]].
    pose proof (object_accepted_keys _ _ _ _ _ _ Hnd Hp Hv) as Hkeys.
    rewrite Hv. rewrite validate_object_unfold.
    rewrite (Object_children_fixed path (compile_children ch) target []).
    - unfold only_keys in Hkeys. rewrite Hkeys. reflexivity.
    - unfold compile_children. rewrite Forall_map.
      rewrite Forall_forall in *. intros [k c] Hkc. simpl.
      destruct (Hin k c Hkc) as [Ha ->]. apply (Hstable (k, c) Hkc). exact Ha. }
  destruct (reads_as_object v) as [props|] eqn:Er.
  - rewrite (validate_object_reads _ _ _ _ _ _ Er) in *.
    unfold accepts in Hacc. rewrite (validate_object_reads _ _ _ _ _ _ Er) in Hacc.
    now apply Hobj.
  - destruct v as [| | | |s| |]; try reflexivity; try (simpl in Er; discriminate Er);
      exfalso; unfold accepts in Hacc;
      rewrite validate_object_not_object in Hacc; auto; discriminate.
Qed.

Lemma stable_returns_again (schema : Schema) (config r : JsValue) :
  stable schema ->
  match error (Joi.validate config schema) with
  | Some e => Throws (ValidationError e)
  | None => Returns (value (Joi.validate config schema))
  end = Returns r ->
  match error (Joi.validate r schema) with
  | Some e => Throws (ValidationError e)
  | None => Returns (value (Joi.validate r schema))
  end = Returns r.
Proof.
  intros Hs Hcall.
  destruct (error (Joi.validate config schema)) eqn:E; [discriminate|].
  injection Hcall as <-. apply validate_error_None in E.
  unfold Joi.validate. cbn [error value]. rewrite (Hs [] config E). reflexivity.
Qed.

Lemma entry_schemas_stable (mw : Schema) :
  stable mw ->
  stable (localAuthenticationSchema (load mw))
  /\ stable (basicAuthenticationSchema (load mw))
  /\ stable (jwtAuthenticationSchema (load mw)).
Proof.
  intros Hmw.
  assert (Hex : stable (jwtRequestExtractorSchema (load mw))).
  { rewrite jwtRequestExtractorSchema_eq. apply stable_object; [distinct_keys|].
    repeat constructor; apply stable_string. }
  split; [|split].
  - rewrite localAuthenticationSchema_eq. apply stable_object; [distinct_keys|].
    repeat constructor; simpl; try apply stable_string. now apply stable_required.
  - rewrite basicAuthenticationSchema_eq. apply stable_object; [distinct_keys|].
    repeat constructor; simpl. now apply stable_required.
  - rewrite jwtAuthenticationSchema_eq. apply stable_object; [distinct_keys|].
    repeat constructor; simpl; try apply stable_string; auto.
    + apply stable_string_array.
    + apply stable_boolean.
Qed.

(** X11. Validation is idempotent: when the middleware rule set hands back
    values it accepts unchanged, a value returned by an entry point is
    accepted by that entry point and returned as it is, whatever the
    candidate was (an object, or a string spelling one in JSON). *)
Theorem X11_validation_is_idempotent (mw : Schema) (config r : JsValue) :
  stable mw ->
  (call mw (validateLocalAuthConfig config) = Returns r ->
   call mw (validateLocalAuthConfig r) = Returns r)
  /\ (call mw (validateBasicAuthConfig config) = Returns r ->
      call mw (validateBasicAuthConfig r) = Returns r)
  /\ (call mw (validateJwtAuthConfig config) = Returns r ->
      call mw (validateJwtAuthConfig r) = Returns r).
Proof.
  intros Hmw. destruct (entry_schemas_stable mw Hmw) as [Hl [Hb Hj]].
  rewrite !call_validateLocalAuthConfig, !call_validateBasicAuthConfig,
    !call_validateJwtAuthConfig.
  split; [|split]; now apply stable_returns_again.
Qed.

Lemma stable_any (p : Presence) : stable (JoiAny p).
Proof. intros path v Hacc. destruct v; try destruct p; try reflexivity; discriminate. Qed.

Lemma X11_validation_is_idempotent_witness :
  let q := String dquote EmptyString in
  let config :=
    JObj [("secretOrKey", JStr "s3cr3t");
          ("algorithms", JStr ("[" ++ q ++ "HS256" ++ q ++ "]")%string);
          ("ignoreExpiration", JStr "TRUE")] in
  let normalized :=
    JObj [("secretOrKey", JStr "s3cr3t");
          ("algorithms", JArr [JStr "HS256"]);
          ("ignoreExpiration", JBool true)] in
  call middlewareConfigModel (validateJwtAuthConfig normalized) = Returns normalized.
Proof.
  intros q config normalized.
  apply (proj2 (proj2 (X11_validation_is_idempotent middlewareConfigModel config normalized
                         (stable_any Optional)))).
  reflexivity.
Defined.

(** *** Unknown keys, all of them *)

Lemma unknown_key_details (path : Path) (keys : list string) :
  flat_map leaves (map (fun k => MkErr object_allowUnknown (path ++ [Key k]) []) keys)
  = map (fun k => mkDetail object_allowUnknown (path ++ [Key k])) keys.
Proof. induction keys as [|k keys IH]; simpl; [reflexivity|]. now rewrite IH. Qed.

(** An object whose declared fields satisfy their rules is refused for its
    undeclared keys, one violation for each, in the order of the keys. *)
Lemma object_unknown_keys_error (p : Presence) (ch : list (string * Schema))
    (candidate : Obj) :
  NoDup (map fst ch) ->
  fields_ok [] ch candidate ->
  unprocessed (map fst ch) candidate <> [] ->
  error (Joi.validate (JObj candidate) (JoiObject p (Some ch) []))
  = Some (mkJoiError (map (fun k => mkDetail object_allowUnknown [Key k])
                          (unprocessed (map fst ch) candidate))).
Proof.
  intros Hnd Hfields Hunknown. unfold Joi.validate. cbn [error].
  rewrite validate_object_unfold.
  destruct (Object_children_ok [] (compile_children ch) candidate [])
    as [t' [sp' [Hrun _]]].
  - now rewrite compile_children_keys.
  - now apply compile_children_accepts.
  - rewrite Hrun. cbn [Object_dependencies res_errors]. cbv zeta.
    cbn [Object_dependencies res_errors].
    destruct (unprocessed (map fst ch) candidate) as [|k ks]; [contradiction|].
    unfold Errors_process. cbn [map]. f_equal. f_equal.
    apply (unknown_key_details [] (k :: ks)).
Qed.

(** X13. Undeclared keys are reported all at once: for an object candidate
    whose declared fields each satisfy their rule and that has undeclared
    keys, the entry point throws a [ValidationError] with one "is not
    allowed" violation for every undeclared key, in the order of the
    candidate's keys, and nothing else. *)
Theorem X13_all_unknown_keys_reported (mw : Schema) (candidate : Obj) :
  let not_allowed schema :=
    Throws (ValidationError
              (mkJoiError (map (fun k => mkDetail object_allowUnknown [Key k])
                               (unprocessed (declared_keys schema) candidate)))) in
  let applies schema :=
    fields_ok [] (children_of schema) candidate
    /\ unprocessed (declared_keys schema) candidate <> [] in
  (applies (localAuthenticationSchema (load mw)) ->
   call mw (validateLocalAuthConfig (JObj candidate))
   = not_allowed (localAuthenticationSchema (load mw)))
  /\ (applies (basicAuthenticationSchema (load mw)) ->
      call mw (validateBasicAuthConfig (JObj candidate))
      = not_allowed (basicAuthenticationSchema (load mw)))
  /\ (applies (jwtAuthenticationSchema (load mw)) ->
      call mw (validateJwtAuthConfig (JObj candidate))
      = not_allowed (jwtAuthenticationSchema (load mw))).
Proof.
  intros not_allowed applies. subst not_allowed applies. cbv beta.
  rewrite call_validateLocalAuthConfig, call_validateBasicAuthConfig,
    call_validateJwtAuthConfig.
  assert (Hl : NoDup (map fst (children_of (localAuthenticationSchema (load mw)))))
    by distinct_keys.
  assert (Hb : NoDup (map fst (children_of (basicAuthenticationSchema (load mw)))))
    by distinct_keys.
  assert (Hj : NoDup (map fst (children_of (jwtAuthenticationSchema (load mw)))))
    by distinct_keys.
  rewrite localAuthenticationSchema_eq, basicAuthenticationSchema_eq,
    jwtAuthenticationSchema_eq in *.
  unfold declared_keys. cbn [children_of] in *.
  split; [|split]; intros [Hf Hu];
    rewrite (object_unknown_keys_error Optional _ candidate) by assumption;
    reflexivity.
Qed.

Lemma X13_all_unknown_keys_reported_witness :
  let candidate := [("realm", JStr "gateway"); ("secretOrKey", JStr "s3cr3t");
                    ("session", JBool false)] in
  call middlewareConfigModel (validateJwtAuthConfig (JObj candidate))
  = Throws (ValidationError
              (mkJoiError [mkDetail object_allowUnknown [Key "realm"];
                           mkDetail object_allowUnknown [Key "session"]])).
Proof.
  intros candidate.
  apply (proj2 (proj2 (X13_all_unknown_keys_reported middlewareConfigModel candidate))).
  split; [repeat constructor | discriminate].
Defined.

(** *** The normalized ApiAuthenticationConfig *)



